(** * smol-js: the function registry and the chat loop of [SmolAI]

    A shallow embedding of [src/chat.ts].  The class [SmolAI] keeps a
    registry of named functions and runs a do/while loop against a chat
    completion service: it sends the conversation, reads the function call
    chosen by the service, parses and validates its arguments, calls the
    function, pushes the result onto the conversation and waits.

    What the file cannot see is taken as a parameter (record [Env]): the
    builtins [JSON.parse] and [JSON.stringify], [zodToJsonSchema], the
    completion service behind [aisdk.createChatCompletion] and
    [Math.random].  Calls to [this.log] only observe and are left out. *)

From stdpp Require Import base option list gmap strings pretty.
From Stdlib Require Import ZArith Lia.

Local Open Scope string_scope.
Local Open Scope list_scope.
Local Open Scope Z_scope.

(** ** JavaScript values and errors *)

(** The data that travels through the loop: decoded arguments, results of
    the registered functions and JSON schema documents. *)
#[warnings="-register-all"]
Inductive JSValue : Type :=
| JUndefined
| JNull
| JBool (b : bool)
| JNum (n : Z)
| JStr (s : string)
| JArr (xs : list JSValue)
| JObj (fields : list (string * JSValue)).

(** The classes of the values thrown in the code or by what it calls. *)
Inductive ErrorClass : Type :=
| PlainError      (* new Error(...) *)
| TypeError       (* property read on undefined *)
| SyntaxError     (* JSON.parse *)
| ZodError        (* schema.parse *)
| OtherError.     (* anything a registered function or the service throws *)

Record JSError : Type := mkError { err_class : ErrorClass; message : string }.

(** A computation that returns or throws. *)
Inductive Res (A : Type) : Type :=
| Ok (a : A)
| Throw (e : JSError).
Arguments Ok {A} a.
Arguments Throw {A} e.

Definition res_bind {A B} (r : Res A) (k : A → Res B) : Res B :=
  match r with
  | Ok a => k a
  | Throw e => Throw e
  end.

Fixpoint res_map_list {A B} (f : A → Res B) (l : list A) : Res (list B) :=
  match l with
  | [] => Ok []
  | x :: l' =>
      res_bind (f x) (λ y, res_bind (res_map_list f l') (λ ys, Ok (y :: ys)))
  end.

Definition nl : string := String (Ascii.ascii_of_nat 10) EmptyString.

(** ** Numbers: the doubles behind [Math.random() * 100]

    A non-negative finite double is [mant * 2 ^ expo] with a significand of
    at most 53 bits. *)
Module Float64.

Record Double : Type := mkDouble { mant : Z; expo : Z }.

Definition is_double (x : Double) : bool :=
  (0 <=? mant x) && (mant x <? 2 ^ 53) && (-1074 <=? expo x) && (expo x <=? 971).

(** [x < 1], the range of [Math.random()]. *)
Definition lt_one (x : Double) : bool :=
  (mant x =? 0) || ((expo x <? 0) && (mant x <? 2 ^ (- expo x))).

(** [x * k] for a small positive integer [k]: the exact product rounded to
    53 bits, ties to even. *)
Definition mul_int (x : Double) (k : Z) : Double :=
  let m := mant x * k in
  if m <? 2 ^ 53 then mkDouble m (expo x)
  else
    let s := Z.log2 m - 52 in
    let q := m / 2 ^ s in
    let r := m mod 2 ^ s in
    let half := 2 ^ (s - 1) in
    let up := if (half <? r) || ((r =? half) && Z.odd q) then 1 else 0 in
    mkDouble (q + up) (expo x + s).

(** [Math.floor] *)
Definition floor (x : Double) : Z :=
  if 0 <=? expo x then mant x * 2 ^ expo x else mant x / 2 ^ (- expo x).

(** A number as the loop computes it: finite, here always an integer, or
    infinite after an overflow. *)
Inductive Number : Type :=
| Finite (n : Z)
| PlusInfinity
| MinusInfinity.

(** The double nearest to the integer [n], ties to even: [n] itself below
    [2 ^ 53] in size, a multiple of a power of two above, and an infinity
    from [2 ^ 1024] on. *)
Definition round_int (n : Z) : Number :=
  let a := Z.abs n in
  if a <? 2 ^ 53 then Finite n
  else
    let s := Z.log2 a - 52 in
    let q := a / 2 ^ s in
    let r := a mod 2 ^ s in
    let half := 2 ^ (s - 1) in
    let up := if (half <? r) || ((r =? half) && Z.odd q) then 1 else 0 in
    let m := (q + up) * 2 ^ s in
    if 2 ^ 1024 <=? m then (if 0 <? n then PlusInfinity else MinusInfinity)
    else Finite (Z.sgn n * m).

(** [a * b] for two integers that are doubles. *)
Definition mul_ints (a b : Z) : Number := round_int (a * b).

(** [x + j] for a number and an integer that is a double. *)
Definition add_int (x : Number) (j : Z) : Number :=
  match x with
  | Finite p => round_int (p + j)
  | PlusInfinity => PlusInfinity
  | MinusInfinity => MinusInfinity
  end.

End Float64.

Coercion Float64.Finite : Z >-> Float64.Number.

(** ** Registered functions *)

(** A JavaScript function: its [name] property (empty for an anonymous
    function), its source text (what a template literal prints) and what a
    call with one argument does. *)
Record Function : Type := mkFunction {
  fn_name : string;
  fn_text : string;
  fn_call : JSValue → Res JSValue
}.

(** A Zod schema is used through its [parse] method only. *)
Record ZodSchema : Type := mkZod { zod_parse : JSValue → Res JSValue }.

(** [RegisteredFunctionSchema = ZodSchema | JSONSchema7Type]; the
    constructor is what [instanceof ZodSchema] tests. *)
Inductive RegisteredFunctionSchema : Type :=
| Zod (z : ZodSchema)
| JSONSchema (doc : JSValue).

Record RegisteredFunctionType : Type := mkRegistered {
  name : string;
  fullFunction : Function;
  schema : RegisteredFunctionSchema;
  jsonSchema : JSValue
}.

(** A [Map] object: the entries that [set], [get] and [delete] work on, and
    apart from them the object's own enumerable properties, which is what
    [Object.keys] lists.  [new Map()] has none. *)
Record JSMap : Type := mkMap {
  map_data : gmap string RegisteredFunctionType;
  own_keys : list string
}.

Definition new_Map : JSMap := mkMap ∅ [].
Definition Map_set (k : string) (v : RegisteredFunctionType) (m : JSMap) : JSMap :=
  mkMap (<[k := v]> (map_data m)) (own_keys m).
Definition Map_delete (k : string) (m : JSMap) : JSMap :=
  mkMap (delete k (map_data m)) (own_keys m).
Definition Map_get (k : string) (m : JSMap) : option RegisteredFunctionType :=
  map_data m !! k.
Definition Object_keys (m : JSMap) : list string := own_keys m.

(** ** Messages, requests and responses *)

Inductive Role : Type := system | user | assistant | function.

Record ChatCompletionRequestMessage : Type := mkMessage {
  role : Role;
  msg_name : option string;
  content : option string
}.

(** An element of [opts.messages]: a bare string or a message. *)
Inductive MessageOrString : Type :=
| MString (s : string)
| MMessage (m : ChatCompletionRequestMessage).

Record Request : Type := mkRequest {
  req_model : string;
  req_messages : list ChatCompletionRequestMessage;
  req_functions : list RegisteredFunctionType;
  req_function_call : option string
}.

(** [message.function_call] of a response: both fields are optional. *)
Record FunctionCall : Type := mkCall {
  fc_name : option string;
  fc_arguments : option string
}.

Record ResponseMessage : Type := mkResponseMessage {
  rm_content : option string;
  function_call : option FunctionCall
}.

Record Choice : Type := mkChoice { choice_message : option ResponseMessage }.

(** [chatCompletion.data] *)
Record Response : Type := mkResponse { choices : list Choice }.

(** [opts.forceFunctionCall?: Function | string | null] *)
Inductive ForceFunctionCall : Type :=
| ForceAbsent                    (* undefined: the service chooses *)
| ForceNull                      (* null: no function is offered *)
| ForceName (s : string)
| ForceFunction (f : Function).

(** An argument of type [string | Function]; [function_call.name] may also
    be undefined at run time. *)
Inductive FunctionRef : Type :=
| RefName (s : string)
| RefFunction (f : Function)
| RefUndefined.

(** ** The environment of the class *)

Record Env : Type := mkEnv {
  JSON_parse : string → Res JSValue;
  JSON_stringify : JSValue → Res (option string);
  zodToJsonSchema : ZodSchema → JSValue;
  (** the [n]-th call of [aisdk.createChatCompletion] *)
  createChatCompletion : nat → Request → Res Response;
  (** the [n]-th draw of [Math.random] *)
  Math_random : nat → Float64.Double
}.

(** ** The world around one call of [chat]

    [heap] holds the arrays that the caller and [chat] share: [opts.messages]
    is a reference into it.  [calls] and [draws] count the requests sent and
    the random numbers drawn so far.  [trace] records, in order, what the
    call did to the outside. *)
Inductive Event : Type :=
| EvRequest (r : Request)
| EvInvoke (f : Function) (args : JSValue)
| EvPush (l : nat) (m : MessageOrString)
| EvSleep (ms : Float64.Number).

Record World : Type := mkWorld {
  heap : gmap nat (list MessageOrString);
  calls : nat;
  draws : nat;
  trace : list Event
}.

Definition emit (ev : Event) (w : World) : World :=
  mkWorld (heap w) (calls w) (draws w) (trace w ++ [ev]).

(** State and exceptions. *)
Definition M (A : Type) : Type := World → Res A * World.

Definition M_ret {A} (a : A) : M A := λ w, (Ok a, w).
Definition M_bind {A B} (m : M A) (k : A → M B) : M B :=
  λ w, match m w with
       | (Ok a, w') => k a w'
       | (Throw e, w') => (Throw e, w')
       end.
Definition lift {A} (r : Res A) : M A := λ w, (r, w).
Definition throw {A} (e : JSError) : M A := lift (Throw e).
Definition try_catch {A} (m : M A) (handler : JSError → M A) : M A :=
  λ w, match m w with
       | (Ok a, w') => (Ok a, w')
       | (Throw e, w') => handler e w'
       end.

#[global] Instance M_mret : MRet M := @M_ret.
#[global] Instance M_mbind : MBind M := λ A B k m, M_bind m k.

(** What a function that runs to a [return] or a [throw] can do when the
    loop is cut after finitely many rounds. *)
Inductive Outcome (A : Type) : Type :=
| Returned (a : A)
| Threw (e : JSError)
| Unfinished.
Arguments Returned {A} a.
Arguments Threw {A} e.
Arguments Unfinished {A}.

(** ** The class *)

Record SmolAI : Type := mkSmolAI {
  systemMessage : string;
  model : string;
  registeredFunctions : JSMap;
  retryLimit : Z;
  retryDelay : Z;
  retryAttempts : Z
}.

(** [opts]: [messages] is the reference to the caller's array. *)
Record Opts : Type := mkOpts {
  messages : nat;
  forceFunctionCall : ForceFunctionCall
}.

(** Field initialisers and constructor: [newSystemMessage] replaces the
    default when it is truthy, that is a non-empty string. *)
Definition constructor (newSystemMessage : option string) : SmolAI :=
  let default_message :=
    "You are a helpful chatbot. You are helping a user with a task." in
  mkSmolAI
    (match newSystemMessage with
     | Some s => if decide (s = EmptyString) then default_message else s
     | None => default_message
     end)
    "gpt-3.5-turbo-0613" new_Map 5 200 0.

Section SmolAI.

Context (E : Env).

Definition addFunction (func : Function) (sch : RegisteredFunctionSchema)
    (this : SmolAI) : SmolAI :=
  let js :=
    match sch with
    | Zod z => zodToJsonSchema E z
    | JSONSchema doc => doc
    end in
  mkSmolAI (systemMessage this) (model this)
    (Map_set (fn_name func) (mkRegistered (fn_name func) func sch js)
       (registeredFunctions this))
    (retryLimit this) (retryDelay this) (retryAttempts this).

(** The key a [string | Function] argument stands for; [undefined] is the
    key of no entry. *)
Definition ref_key (func : FunctionRef) : option string :=
  match func with
  | RefName s => Some s
  | RefFunction f => Some (fn_name f)
  | RefUndefined => None
  end.

Definition deregisterFunction (func : FunctionRef) (this : SmolAI) : SmolAI :=
  match ref_key func with
  | Some k =>
      mkSmolAI (systemMessage this) (model this)
        (Map_delete k (registeredFunctions this))
        (retryLimit this) (retryDelay this) (retryAttempts this)
  | None => this
  end.

(** The text of [func] inside a template literal. *)
Definition ref_text (func : FunctionRef) : string :=
  match func with
  | RefName s => s
  | RefFunction f => fn_text f
  | RefUndefined => "undefined"
  end.

Definition not_found (func : FunctionRef) : JSError :=
  mkError PlainError
    ("smolChat error - function " +:+ ref_text func +:+
     " not found. Please report a bug.").

Definition getFunction (this : SmolAI) (func : FunctionRef)
    : Res RegisteredFunctionType :=
  match ref_key func ≫= (λ k, Map_get k (registeredFunctions this)) with
  | Some fn => Ok fn
  | None => Throw (not_found func)
  end.

Definition listFunctions (this : SmolAI) : Res (list RegisteredFunctionType) :=
  res_map_list (λ fnName, getFunction this (RefName fnName))
    (Object_keys (registeredFunctions this)).

End SmolAI.

(** ** [chat] *)

Section Chat.

Context (E : Env).

(** *** What [chat] does to the world *)

(** Reading the array behind a reference. *)
Definition read_array (l : nat) : M (list MessageOrString) :=
  λ w, (Ok (default [] (heap w !! l)), w).

(** [array.push(m)]: the array behind [l] is changed in place. *)
Definition Array_push (l : nat) (m : MessageOrString) : M () :=
  λ w, (Ok (),
        emit (EvPush l m)
          (mkWorld (alter (λ a, a ++ [m]) l (heap w)) (calls w) (draws w)
             (trace w))).

(** [await this.aisdk.createChatCompletion(req)] *)
Definition send (req : Request) : M Response :=
  λ w, (createChatCompletion E (calls w) req,
        emit (EvRequest req)
          (mkWorld (heap w) (S (calls w)) (draws w) (trace w))).

(** [await f(args)] *)
Definition invoke (f : Function) (args : JSValue) : M JSValue :=
  λ w, (fn_call f args, emit (EvInvoke f args) w).

(** [Math.random()] *)
Definition random : M Float64.Double :=
  λ w, (Ok (Math_random E (draws w)),
        mkWorld (heap w) (calls w) (S (draws w)) (trace w)).

(** [await new Promise((r) => setTimeout(r, ms))] *)
Definition sleep (ms : Float64.Number) : M () :=
  λ w, (Ok (), emit (EvSleep ms) w).

(** *** The pieces of the loop body *)

(** Lines 82-84: the [function_call] field of the request. *)
Definition forced_name (f : ForceFunctionCall) : option string :=
  match f with
  | ForceNull => None
  | ForceFunction g => Some (fn_name g)
  | ForceName s => Some s
  | ForceAbsent => None
  end.

(** Lines 89-92: a bare string becomes a user message. *)
Definition coerce (m : MessageOrString) : ChatCompletionRequestMessage :=
  match m with
  | MString s => mkMessage user None (Some s)
  | MMessage m' => m'
  end.

(** Lines 85-97: the request built from the current array. *)
Definition build_request (this : SmolAI) (opts : Opts)
    (functions : list RegisteredFunctionType)
    (arr : list MessageOrString) : Request :=
  mkRequest (model this)
    (mkMessage system None (Some (systemMessage this)) :: map coerce arr)
    (match forceFunctionCall opts with
     | ForceNull => []
     | _ => functions
     end)
    (forced_name (forceFunctionCall opts)).

Definition undefined_read (property : string) : JSError :=
  mkError TypeError
    ("Cannot read properties of undefined (reading '" +:+ property +:+ "')").

(** Line 100: [chatCompletion.data.choices[0].message.function_call]. *)
Definition first_function_call (resp : Response) : Res (option FunctionCall) :=
  match choices resp with
  | [] => Throw (undefined_read "message")
  | c :: _ =>
      match choice_message c with
      | None => Throw (undefined_read "function_call")
      | Some m => Ok (function_call m)
      end
  end.

(** Line 101: reading [function_call.name] needs a function call. *)
Definition read_call (fc : option FunctionCall) : Res FunctionCall :=
  match fc with
  | None => Throw (undefined_read "name")
  | Some c => Ok c
  end.

Definition call_ref (c : FunctionCall) : FunctionRef :=
  match fc_name c with
  | Some s => RefName s
  | None => RefUndefined
  end.

(** The text [JSON.parse] sees: an undefined argument reads "undefined". *)
Definition arguments_text (c : FunctionCall) : string :=
  default "undefined" (fc_arguments c).

(** Lines 106-112, the body of the [try]. *)
Definition parse_arguments (selectedFunction : RegisteredFunctionType)
    (c : FunctionCall) : Res JSValue :=
  res_bind (JSON_parse E (arguments_text c)) (λ json,
    match schema selectedFunction with
    | Zod z => zod_parse z json
    | JSONSchema _ => Ok json
    end).

Definition indent : string := "            ".

(** Lines 115-121, the message pushed by the [catch]. *)
Definition invalid_arguments_message (err : JSError) : MessageOrString :=
  MMessage (mkMessage user None
    (Some ("Your function call involved invalid arguments." +:+ nl +:+
           indent +:+ message err +:+ nl +:+
           indent +:+
           "Please respond only with valid JSON under the provided schema."
           +:+ nl +:+ indent))).

(** Lines 136-140. *)
Definition function_message (selectedFunction : RegisteredFunctionType)
    (text : option string) : MessageOrString :=
  MMessage (mkMessage function (Some (name selectedFunction)) text).

(** Lines 147-149. *)
Definition jitter (r : Float64.Double) : Z :=
  Float64.floor (Float64.mul_int r 100).

(** The sum of line 147-149, in the arithmetic of doubles: the product is
    rounded, then the sum.  The retry fields hold integers, as their
    initial values are. *)
Definition backoff (this : SmolAI) (r : Float64.Double) : Float64.Number :=
  Float64.add_int (Float64.mul_ints (retryAttempts this) (retryDelay this))
    (jitter r).

(** *** Lines 81-151: one round of the do/while

    [shouldRetry] is declared outside the loop; the round returns it with
    the response.  [getFunction] returns a descriptor or throws, so the
    test of line 104 holds whenever it is reached and the [else] of line
    124 is never taken.  Nothing leaves the round after the [catch]: lines
    133-151 run whether the arguments passed or not. *)
Definition round (this : SmolAI) (opts : Opts)
    (functions : list RegisteredFunctionType) (shouldRetry : bool)
    : M (Response * bool) :=
  arr ← read_array (messages opts);
  chatCompletion ← send (build_request this opts functions arr);
  fc ← lift (first_function_call chatCompletion);
  c ← lift (read_call fc);
  selectedFunction ← lift (getFunction this (call_ref c));
  '(args, shouldRetry') ←
    try_catch
      (args ← lift (parse_arguments selectedFunction c);
       mret (args, shouldRetry))
      (λ err,
         Array_push (messages opts) (invalid_arguments_message err);;
         mret (JUndefined, true));
  results ← invoke (fullFunction selectedFunction) args;
  text ← lift (JSON_stringify E results);
  Array_push (messages opts) (function_message selectedFunction text);;
  r ← random;
  sleep (backoff this r);;
  mret (chatCompletion, shouldRetry').

(** The request that a round starting in [w] sends. *)
Definition next_request (this : SmolAI) (opts : Opts)
    (functions : list RegisteredFunctionType) (w : World) : Request :=
  build_request this opts functions (default [] (heap w !! messages opts)).

(** Line 152: the loop test. *)
Definition again (this : SmolAI) (shouldRetry : bool) : bool :=
  shouldRetry && (retryAttempts this <? retryLimit this).

(** The do/while, cut after [fuel] rounds. *)
Fixpoint do_while (fuel : nat) (this : SmolAI) (opts : Opts)
    (functions : list RegisteredFunctionType) (shouldRetry : bool)
    (w : World) : Outcome Response * World :=
  match fuel with
  | O => (Unfinished, w)
  | S fuel' =>
      match round this opts functions shouldRetry w with
      | (Throw e, w') => (Threw e, w')
      | (Ok (chatCompletion, shouldRetry'), w') =>
          if again this shouldRetry'
          then do_while fuel' this opts functions shouldRetry' w'
          else (Returned chatCompletion, w')
      end
  end.

(** Lines 71-156. *)
Definition chat (fuel : nat) (this : SmolAI) (opts : Opts) (w : World)
    : Outcome Response * World :=
  match listFunctions this with
  | Throw e => (Threw e, w)
  | Ok functions => do_while fuel this opts functions false w
  end.

End Chat.

(** ** Reading a trace *)

Definition invocations (evs : list Event) : list (string * JSValue) :=
  omap (λ ev, match ev with
              | EvInvoke f args => Some (fn_name f, args)
              | _ => None
              end) evs.

Definition requests (evs : list Event) : list Request :=
  omap (λ ev, match ev with EvRequest r => Some r | _ => None end) evs.

Definition sleeps (evs : list Event) : list Float64.Number :=
  omap (λ ev, match ev with EvSleep ms => Some ms | _ => None end) evs.

(** The messages pushed onto the array behind [l]. *)
Definition pushed (l : nat) (evs : list Event) : list MessageOrString :=
  omap (λ ev, match ev with
              | EvPush l' m => if decide (l' = l) then Some m else None
              | _ => None
              end) evs.

(** Every request of [evs] carries the system message and then the array
    behind [l] as it is when the request is sent, [arr] being the array
    before [evs]. *)
Fixpoint carries (this : SmolAI) (l : nat) (arr : list MessageOrString)
    (evs : list Event) : Prop :=
  match evs with
  | [] => True
  | EvRequest r :: evs' =>
      req_messages r =
        mkMessage system None (Some (systemMessage this)) :: map coerce arr
      ∧ carries this l arr evs'
  | EvPush l' m :: evs' =>
      carries this l (if decide (l' = l) then arr ++ [m] else arr) evs'
  | _ :: evs' => carries this l arr evs'
  end.

(** *** The conversation, told without the loop

    A second description of what [chat] does to the caller's array, to
    compare the loop with: it uses neither [round] nor [Array_push].  What a
    round leaves on the array is decided by the answer of the service
    alone.  A function message follows when the function, called with
    [args], returns and its result serialises. *)
Definition result_message (E : Env) (d : RegisteredFunctionType)
    (args : JSValue) : list MessageOrString :=
  match fn_call (fullFunction d) args with
  | Ok res =>
      match JSON_stringify E res with
      | Ok text => [MMessage (mkMessage function (Some (name d)) text)]
      | Throw _ => []
      end
  | Throw _ => []
  end.

(** The messages that the round with this answer appends: nothing when the
    round throws before the arguments are looked at; the function message
    when the arguments pass; the message about invalid arguments when they
    do not, and behind it the function message of the call without
    arguments. *)
Definition appended (E : Env) (this : SmolAI) (answer : Res Response)
    : list MessageOrString :=
  match answer with
  | Throw _ => []
  | Ok resp =>
      match res_bind (first_function_call resp) read_call with
      | Throw _ => []
      | Ok c =>
          match getFunction this (call_ref c) with
          | Throw _ => []
          | Ok d =>
              match parse_arguments E d c with
              | Ok args => result_message E d args
              | Throw err =>
                  invalid_arguments_message err :: result_message E d JUndefined
              end
          end
      end
  end.

(** The caller's array after the rounds of the requests [reqs], the first of
    them being call [n] of the service, when it was [arr] before. *)
Fixpoint conversation (E : Env) (this : SmolAI) (n : nat)
    (arr : list MessageOrString) (reqs : list Request) : list MessageOrString :=
  match reqs with
  | [] => arr
  | req :: reqs' =>
      conversation E this (S n)
        (arr ++ appended E this (createChatCompletion E n req)) reqs'
  end.

(** Every request of [reqs] carries the system message and then the
    conversation up to it. *)
Fixpoint carried (E : Env) (this : SmolAI) (n : nat)
    (arr : list MessageOrString) (reqs : list Request) : Prop :=
  match reqs with
  | [] => True
  | req :: reqs' =>
      req_messages req =
        mkMessage system None (Some (systemMessage this)) :: map coerce arr
      ∧ carried E this (S n)
          (arr ++ appended E this (createChatCompletion E n req)) reqs'
  end.

(** The two kinds of message that the loop body pushes. *)
Definition pushed_by_loop (m : MessageOrString) : Prop :=
  (∃ err, m = invalid_arguments_message err) ∨
  (∃ d text, m = function_message d text).

(** A service that always selects a registered function with arguments that
    do not pass, the function returning all the same when it is called
    without arguments. *)
Definition always_invalid (E : Env) (this : SmolAI) : Prop :=
  ∀ n req, ∃ resp c d err res text,
    createChatCompletion E n req = Ok resp
    ∧ first_function_call resp = Ok (Some c)
    ∧ getFunction this (call_ref c) = Ok d
    ∧ parse_arguments E d c = Throw err
    ∧ fn_call (fullFunction d) JUndefined = Ok res
    ∧ JSON_stringify E res = Ok text.

(** ** Sequences of registry operations *)

Inductive Operation : Type :=
| Register (func : Function) (sch : RegisteredFunctionSchema)
| Deregister (func : FunctionRef).

Definition apply_operation (E : Env) (this : SmolAI) (op : Operation) : SmolAI :=
  match op with
  | Register func sch => addFunction E func sch this
  | Deregister func => deregisterFunction func this
  end.

Definition run (E : Env) (ops : list Operation) (this : SmolAI) : SmolAI :=
  fold_left (apply_operation E) ops this.

(** The wire schema that registration derives from a schema. *)
Definition derived (E : Env) (sch : RegisteredFunctionSchema) : JSValue :=
  match sch with
  | Zod z => zodToJsonSchema E z
  | JSONSchema doc => doc
  end.

(** The registry invariant with the non-empty name asked of every
    descriptor. *)
Definition named_and_derived (E : Env) (this : SmolAI) : Prop :=
  ∀ k d, Map_get k (registeredFunctions this) = Some d →
         name d ≠ EmptyString ∧ jsonSchema d = derived E (schema d).

(** What the code keeps of it: a descriptor is stored under its name, which
    is the name of its function, with the wire schema derived from its
    schema. *)
Definition stored_ok (E : Env) (this : SmolAI) : Prop :=
  ∀ k d, Map_get k (registeredFunctions this) = Some d →
         name d = k ∧ name d = fn_name (fullFunction d) ∧
         jsonSchema d = derived E (schema d).

(** ** Concrete instances

    A registered function, two schemas for it, builtins that agree with
    JavaScript on the few texts and values used below, and completion
    services that always answer the same. *)
Module Examples.

Definition quote : string := String (Ascii.ascii_of_nat 34) EmptyString.

(** [{"city":"Paris"}] *)
Definition paris_text : string :=
  "{" +:+ quote +:+ "city" +:+ quote +:+ ":" +:+ quote +:+ "Paris" +:+ quote +:+ "}".
Definition paris : JSValue := JObj [("city", JStr "Paris")].

(** [{"tempC":18}] *)
Definition weather : JSValue := JObj [("tempC", JNum 18)].
Definition weather_text : string :=
  "{" +:+ quote +:+ "tempC" +:+ quote +:+ ":18}".

(** [function getWeather(args) { return { tempC: 18 } }] *)
Definition getWeather : Function :=
  mkFunction "getWeather" "function getWeather(args) { return { tempC: 18 } }"
    (λ _, Ok weather).

(** [(args) => ({ tempC: 18 })], passed without a name. *)
Definition anonymous : Function :=
  mkFunction EmptyString "(args) => ({ tempC: 18 })" (λ _, Ok weather).

(** [z.object({ city: z.string() })] *)
Definition city_zod : ZodSchema :=
  mkZod (λ v,
    match v with
    | JObj [(k, JStr s)] =>
        if String.eqb k "city" then Ok v
        else Throw (mkError ZodError "Required")
    | _ => Throw (mkError ZodError "Expected object")
    end).

(** [{ type: "object", properties: { city: { type: "string" } },
       required: ["city"] }] *)
Definition city_document : JSValue :=
  JObj [("type", JStr "object");
        ("properties", JObj [("city", JObj [("type", JStr "string")])]);
        ("required", JArr [JStr "city"])].

(** [JSON.parse] on the three texts that the services below send.  Any
    other text throws here, as [undefined] does in JavaScript; none is
    used. *)
Definition parse (text : string) : Res JSValue :=
  if String.eqb text paris_text then Ok paris
  else if String.eqb text "5" then Ok (JNum 5)
  else if String.eqb text "{" then
    Throw (mkError SyntaxError "Unexpected end of JSON input")
  else
    Throw (mkError SyntaxError "Unexpected token u in JSON at position 0").

(** [JSON.stringify] on the values of [JSValue], which hold neither cycles
    nor big integers: it never throws.  Strings are taken without characters
    to escape.  An undefined array element prints as null, an undefined
    property is left out. *)
Fixpoint stringify_value (v : JSValue) : option string :=
  match v with
  | JUndefined => None
  | JNull => Some "null"
  | JBool b => Some (if b then "true" else "false")
  | JNum n => Some (pretty n)
  | JStr s => Some (quote +:+ s +:+ quote)
  | JArr xs =>
      Some ("[" +:+ String.concat ","
                      (map (λ x, default "null" (stringify_value x)) xs) +:+ "]")
  | JObj fields =>
      Some ("{" +:+ String.concat ","
                      (omap (λ kx, (λ t, quote +:+ kx.1 +:+ quote +:+ ":" +:+ t)
                                     <$> stringify_value kx.2) fields) +:+ "}")
  end.

Definition stringify (v : JSValue) : Res (option string) := Ok (stringify_value v).

Definition reply (fc : option FunctionCall) : Response :=
  mkResponse [mkChoice (Some (mkResponseMessage None fc))].

(** [Math.random()] always draws the largest double below 1. *)
Definition largest : Float64.Double := Float64.mkDouble (2 ^ 53 - 1) (-53).

(** The environment in which the service always selects [fc]. *)
Definition env (fc : option FunctionCall) : Env :=
  mkEnv parse stringify (λ _, city_document) (λ _ _, Ok (reply fc))
    (λ _, largest).

Definition select (fname text : string) : option FunctionCall :=
  Some (mkCall (Some fname) (Some text)).

(** The service selects [getWeather] with arguments that pass. *)
Definition valid_service : Env := env (select "getWeather" paris_text).
(** The arguments parse as JSON, but are not an object with a city. *)
Definition rejected_service : Env := env (select "getWeather" "5").
(** The arguments do not parse. *)
Definition malformed_service : Env := env (select "getWeather" "{").
(** The service selects a function that nobody registered. *)
Definition unknown_service : Env := env (select "doThing" paris_text).
(** The service answers without selecting a function. *)
Definition silent_service : Env := env None.

(** [new SmolAI(sdk)] and one registration. *)
Definition with_zod : SmolAI :=
  addFunction silent_service getWeather (Zod city_zod) (constructor None).
Definition with_document : SmolAI :=
  addFunction silent_service getWeather (JSONSchema city_document)
    (constructor None).

(** The caller's array is at reference 0 and holds one string. *)
Definition start : World := mkWorld {[ 0%nat := [MString "Weather in Paris?"] ]} 0 0 [].
Definition opts : Opts := mkOpts 0 ForceAbsent.

(** A second function of the name [getWeather], and a function of another
    name. *)
Definition getWeatherFahrenheit : Function :=
  mkFunction "getWeather" "function getWeather(args) { return { tempF: 64 } }"
    (λ _, Ok (JObj [("tempF", JNum 64)])).
Definition getTime : Function :=
  mkFunction "getTime" "function getTime() { return 12 }" (λ _, Ok (JNum 12)).

(** [async function getWeather(args) { throw new Error("unavailable") }] *)
Definition unavailable : Function :=
  mkFunction "getWeather"
    "async function getWeather(args) { throw new Error('unavailable') }"
    (λ _, Throw (mkError PlainError "unavailable")).
Definition with_unavailable : SmolAI :=
  addFunction silent_service unavailable (JSONSchema city_document)
    (constructor None).

(** The request fails. *)
Definition broken_service : Env :=
  mkEnv parse stringify (λ _, city_document)
    (λ _ _, Throw (mkError OtherError "Network Error")) (λ _, largest).
(** The response has no choice. *)
Definition empty_service : Env :=
  mkEnv parse stringify (λ _, city_document) (λ _ _, Ok (mkResponse []))
    (λ _, largest).

(** An instance after [ai.retryAttempts = 2 ** 53; ai.retryDelay = 1]. *)
Definition persistent : SmolAI :=
  mkSmolAI (systemMessage with_zod) (model with_zod)
    (registeredFunctions with_zod) (retryLimit with_zod) 1 (2 ^ 53).

(** An instance after [ai.retryLimit = 0]. *)
Definition impatient : SmolAI :=
  mkSmolAI (systemMessage with_zod) (model with_zod)
    (registeredFunctions with_zod) 0 (retryDelay with_zod)
    (retryAttempts with_zod).

Definition forced : Opts := mkOpts 0 (ForceName "getWeather").
Definition disabled : Opts := mkOpts 0 ForceNull.

End Examples.

(** * Properties *)

(** ** The jitter *)

Section Rounding.
Import Float64.

(** Rounding [m] to a multiple of [2 ^ s] moves it up by at most half a
    step and never down by a full step. *)
Lemma round_step (m s : Z) :
  0 <= m -> 1 <= s ->
  let q := m / 2 ^ s in
  let r := m mod 2 ^ s in
  let up := if (2 ^ (s - 1) <? r) || ((r =? 2 ^ (s - 1)) && Z.odd q) then 1 else 0 in
  0 <= q + up /\ (q + up) * 2 ^ s <= m + 2 ^ (s - 1).
Proof.
  intros Hm Hs q r up.
  assert (Hp : 0 < 2 ^ (s - 1)) by (apply Z.pow_pos_nonneg; lia).
  assert (H2 : 2 ^ s = 2 * 2 ^ (s - 1)).
  { replace s with (Z.succ (s - 1)) at 1 by lia. apply Z.pow_succ_r. lia. }
  assert (Hdiv : m = 2 ^ s * q + r) by (apply Z.div_mod; lia).
  assert (Hr : 0 <= r < 2 ^ s) by (apply Z.mod_pos_bound; lia).
  assert (Hq : 0 <= q) by (apply Z.div_pos; lia).
  assert (Hup : up = 0 \/ (up = 1 /\ 2 ^ (s - 1) <= r)).
  { subst up. destruct (2 ^ (s - 1) <? r) eqn:Hlt; simpl.
    - right. apply Z.ltb_lt in Hlt. lia.
    - destruct (r =? 2 ^ (s - 1)) eqn:Heq; simpl.
      + apply Z.eqb_eq in Heq. destruct (Z.odd q); [right | left]; lia.
      + now left. }
  split; [lia |].
  destruct Hup as [-> | [-> Hhalf]]; nia.
Qed.

Lemma floor_range (m e b : Z) :
  0 <= m -> 0 < b ->
  (if 0 <=? e then m * 2 ^ e < b else m < b * 2 ^ (- e)) ->
  0 <= floor (mkDouble m e) < b.
Proof.
  intros Hm Hb H. unfold floor; simpl.
  destruct (0 <=? e) eqn:He.
  - apply Z.leb_le in He.
    assert (0 < 2 ^ e) by (apply Z.pow_pos_nonneg; lia). nia.
  - apply Z.leb_gt in He.
    assert (0 < 2 ^ (- e)) by (apply Z.pow_pos_nonneg; lia).
    split; [apply Z.div_pos; lia |].
    apply Z.div_lt_upper_bound; lia.
Qed.

(** [Math.floor(Math.random() * 100)] is one of 0, ..., 99. *)
Lemma jitter_range (x : Double) :
  is_double x = true -> lt_one x = true ->
  0 <= floor (mul_int x 100) < 100.
Proof.
  unfold is_double, lt_one. intros Hd Hlt.
  destruct x as [m e]; simpl in *.
  repeat (apply andb_prop in Hd; destruct Hd as [Hd ?]).
  apply Z.leb_le in Hd.
  repeat match goal with
         | H : (_ <? _) = true |- _ => apply Z.ltb_lt in H
         | H : (_ <=? _) = true |- _ => apply Z.leb_le in H
         end.
  unfold mul_int; simpl.
  apply orb_prop in Hlt. destruct Hlt as [Hz | Hlt].
  - apply Z.eqb_eq in Hz. subst m. simpl.
    apply floor_range; [lia | lia |].
    destruct (0 <=? e) eqn:He; [lia |].
    apply Z.leb_gt in He.
    assert (0 < 2 ^ (- e)) by (apply Z.pow_pos_nonneg; lia). lia.
  - apply andb_prop in Hlt. destruct Hlt as [He Hm].
    apply Z.ltb_lt in He, Hm.
    assert (HE : 0 < 2 ^ (- e)) by (apply Z.pow_pos_nonneg; lia).
    destruct (m * 100 <? 2 ^ 53) eqn:Hsmall.
    + apply floor_range; [lia | lia |].
      destruct (0 <=? e) eqn:He'; [apply Z.leb_le in He'; lia | lia].
    + apply Z.ltb_ge in Hsmall.
      set (M := m * 100) in *.
      assert (HM : 0 < M) by (assert (0 < 2 ^ 53) by (now apply Z.pow_pos_nonneg); lia).
      assert (Hlo : 53 <= Z.log2 M) by (apply Z.log2_le_pow2; lia).
      assert (Hhi : Z.log2 M < 60).
      { apply Z.log2_lt_pow2; [lia |].
        change (2 ^ 60) with (128 * 2 ^ 53). lia. }
      set (s := Z.log2 M - 52) in *.
      assert (Hs : 1 <= s <= 7) by lia.
      pose proof (round_step M s ltac:(lia) ltac:(lia)) as [Hq HR].
      cbv zeta in Hq, HR.
      set (q' := M / 2 ^ s +
                 (if (2 ^ (s - 1) <? M mod 2 ^ s) ||
                     ((M mod 2 ^ s =? 2 ^ (s - 1)) && Z.odd (M / 2 ^ s))
                  then 1 else 0)) in *.
      assert (Hhalf : 2 ^ (s - 1) <= 64).
      { change 64 with (2 ^ 6). apply Z.pow_le_mono_r; lia. }
      assert (Hbound : q' * 2 ^ s < 100 * 2 ^ (- e)) by lia.
      apply floor_range; [lia | lia |].
      destruct (0 <=? e + s) eqn:Hes.
      * apply Z.leb_le in Hes.
        assert (Hsplit : 2 ^ s = 2 ^ (e + s) * 2 ^ (- e)).
        { rewrite <- Z.pow_add_r by lia. f_equal. lia. }
        assert (0 < 2 ^ (e + s)) by (apply Z.pow_pos_nonneg; lia).
        rewrite Hsplit in Hbound. nia.
      * apply Z.leb_gt in Hes.
        assert (Hsplit : 2 ^ (- e) = 2 ^ (- (e + s)) * 2 ^ s).
        { rewrite <- Z.pow_add_r by lia. f_equal. lia. }
        assert (0 < 2 ^ s) by (apply Z.pow_pos_nonneg; lia).
        rewrite Hsplit in Hbound. nia.
Qed.

End Rounding.

(** ** The registry *)

Section Registry.

Context (E : Env).

Lemma addFunction_get (func : Function) (sch : RegisteredFunctionSchema)
    (this : SmolAI) (k : string) :
  Map_get k (registeredFunctions (addFunction E func sch this)) =
    if decide (fn_name func = k)
    then Some (mkRegistered (fn_name func) func sch (derived E sch))
    else Map_get k (registeredFunctions this).
Proof.
  unfold addFunction, Map_get, Map_set; simpl.
  rewrite lookup_insert. destruct sch; reflexivity.
Qed.

Lemma deregisterFunction_get (func : FunctionRef) (this : SmolAI) (k : string) :
  Map_get k (registeredFunctions (deregisterFunction func this)) =
    if decide (ref_key func = Some k) then None
    else Map_get k (registeredFunctions this).
Proof.
  unfold deregisterFunction, Map_get.
  destruct (ref_key func) as [k' |]; simpl.
  - rewrite lookup_delete.
    destruct (decide (k' = k)), (decide (Some k' = Some k)); congruence.
  - destruct (decide (None = Some k)); congruence.
Qed.

(** No method gives the map object a property of its own. *)
Lemma apply_operation_own_keys (this : SmolAI) (op : Operation) :
  own_keys (registeredFunctions (apply_operation E this op)) =
  own_keys (registeredFunctions this).
Proof.
  destruct op as [func sch | func]; simpl; [reflexivity |].
  unfold deregisterFunction. destruct (ref_key func); reflexivity.
Qed.

Lemma run_own_keys (ops : list Operation) (this : SmolAI) :
  own_keys (registeredFunctions (run E ops this)) =
  own_keys (registeredFunctions this).
Proof.
  unfold run. revert this. induction ops as [| op ops IH]; intros this; simpl.
  - reflexivity.
  - rewrite IH. apply apply_operation_own_keys.
Qed.

(** Whatever has been registered, [listFunctions] lists nothing. *)
Lemma listFunctions_run (ops : list Operation) (s : option string) :
  listFunctions (run E ops (constructor s)) = Ok [].
Proof.
  unfold listFunctions, Object_keys. rewrite run_own_keys. reflexivity.
Qed.

Lemma stored_ok_constructor (s : option string) : stored_ok E (constructor s).
Proof. intros k d. unfold Map_get; simpl. rewrite lookup_empty. discriminate. Qed.

Lemma stored_ok_apply (this : SmolAI) (op : Operation) :
  stored_ok E this → stored_ok E (apply_operation E this op).
Proof.
  intros Hok k d. destruct op as [func sch | func]; unfold apply_operation.
  - rewrite addFunction_get. destruct (decide (fn_name func = k)) as [<- |].
    + intros [= <-]. simpl. auto.
    + apply Hok.
  - rewrite deregisterFunction_get.
    destruct (decide (ref_key func = Some k)); [discriminate | apply Hok].
Qed.

Lemma stored_ok_run (ops : list Operation) (this : SmolAI) :
  stored_ok E this → stored_ok E (run E ops this).
Proof.
  unfold run. revert this. induction ops as [| op ops IH]; intros this Hok; simpl.
  - exact Hok.
  - apply IH, stored_ok_apply, Hok.
Qed.

(** No method of the class assigns the retry fields: they stay as the field
    initialisers set them. *)
Lemma run_retry_fields (ops : list Operation) (s : option string) :
  retryAttempts (run E ops (constructor s)) = 0
  ∧ retryDelay (run E ops (constructor s)) = 200
  ∧ retryLimit (run E ops (constructor s)) = 5.
Proof.
  unfold run.
  assert (Hgen : ∀ this,
            retryAttempts (fold_left (apply_operation E) ops this) = retryAttempts this
            ∧ retryDelay (fold_left (apply_operation E) ops this) = retryDelay this
            ∧ retryLimit (fold_left (apply_operation E) ops this) = retryLimit this).
  { induction ops as [| op ops IH]; intros this; simpl; [auto |].
    destruct (IH (apply_operation E this op)) as (-> & -> & ->).
    destruct op as [func sch | func]; simpl; [auto |].
    unfold deregisterFunction. destruct (ref_key func); auto. }
  apply Hgen.
Qed.

End Registry.

(** ** One round of the loop *)

(** Unfolding a round down to the calls of the environment. *)
Ltac run_round :=
  unfold round, next_request, mbind, mret, M_mbind, M_mret, M_bind, M_ret,
    try_catch, read_array, send, lift, invoke, Array_push, random, sleep,
    emit in *;
  cbn [fst snd heap calls draws trace] in *.

(** A case distinction on the first call whose result decides the path. *)
Ltac split_round :=
  match goal with
  | |- context [match ?x with _ => _ end] =>
      lazymatch x with
      | context [match _ with _ => _ end] => fail
      | _ => destruct x eqn:?; simpl
      end
  end.

Section Loop.

Context (E : Env).
Variables (this : SmolAI) (opts : Opts) (functions : list RegisteredFunctionType).

(** The service fails: its error leaves the round after the request. *)
Lemma round_send_throws (shouldRetry : bool) (w : World) (e : JSError) :
  createChatCompletion E (calls w) (next_request this opts functions w) = Throw e →
  round E this opts functions shouldRetry w =
    (Throw e, (send E (next_request this opts functions w) w).2).
Proof. intros H. run_round. rewrite H. reflexivity. Qed.

(** The selected name is not registered: the error of [getFunction] leaves
    the round, lines 104-151 are not reached. *)
Lemma round_no_function (shouldRetry : bool) (w : World) (resp : Response)
    (c : FunctionCall) (e : JSError) :
  createChatCompletion E (calls w) (next_request this opts functions w) = Ok resp →
  first_function_call resp = Ok (Some c) →
  getFunction this (call_ref c) = Throw e →
  round E this opts functions shouldRetry w =
    (Throw e, (send E (next_request this opts functions w) w).2).
Proof. intros H1 H2 H3. run_round. rewrite H1, H2. simpl. rewrite H3. reflexivity. Qed.

(** No function call in the first choice: reading its name throws. *)
Lemma round_no_call (shouldRetry : bool) (w : World) (resp : Response) :
  createChatCompletion E (calls w) (next_request this opts functions w) = Ok resp →
  first_function_call resp = Ok None →
  round E this opts functions shouldRetry w =
    (Throw (undefined_read "name"),
     (send E (next_request this opts functions w) w).2).
Proof. intros H1 H2. run_round. rewrite H1, H2. reflexivity. Qed.

(** The arguments do not pass: the [catch] pushes its message, and the round
    goes on with [args] undefined, calls the function, pushes the function
    message and waits.  [shouldRetry] is set. *)
Lemma round_invalid (shouldRetry : bool) (w : World) (resp : Response)
    (c : FunctionCall) (d : RegisteredFunctionType) (err : JSError)
    (res : JSValue) (text : option string) :
  createChatCompletion E (calls w) (next_request this opts functions w) = Ok resp →
  first_function_call resp = Ok (Some c) →
  getFunction this (call_ref c) = Ok d →
  parse_arguments E d c = Throw err →
  fn_call (fullFunction d) JUndefined = Ok res →
  JSON_stringify E res = Ok text →
  ∃ w', round E this opts functions shouldRetry w = (Ok (resp, true), w')
      ∧ trace w' = trace w ++
          [EvRequest (next_request this opts functions w);
           EvPush (messages opts) (invalid_arguments_message err);
           EvInvoke (fullFunction d) JUndefined;
           EvPush (messages opts) (function_message d text);
           EvSleep (backoff this (Math_random E (draws w)))]
      ∧ heap w' = alter (λ a, a ++ [function_message d text]) (messages opts)
                    (alter (λ a, a ++ [invalid_arguments_message err])
                       (messages opts) (heap w))
      ∧ calls w' = S (calls w) ∧ draws w' = S (draws w).
Proof.
  intros H1 H2 H3 H4 H5 H6. run_round.
  rewrite H1, H2. simpl. rewrite H3, H4. simpl. rewrite H5, H6. simpl.
  eexists. split; [reflexivity |]. simpl.
  repeat rewrite <- app_assoc. auto.
Qed.

(** The arguments pass: the function is called with them, the function
    message is pushed, the round waits.  [shouldRetry] is as it was. *)
Lemma round_valid (shouldRetry : bool) (w : World) (resp : Response)
    (c : FunctionCall) (d : RegisteredFunctionType) (args : JSValue)
    (res : JSValue) (text : option string) :
  createChatCompletion E (calls w) (next_request this opts functions w) = Ok resp →
  first_function_call resp = Ok (Some c) →
  getFunction this (call_ref c) = Ok d →
  parse_arguments E d c = Ok args →
  fn_call (fullFunction d) args = Ok res →
  JSON_stringify E res = Ok text →
  ∃ w', round E this opts functions shouldRetry w = (Ok (resp, shouldRetry), w')
      ∧ trace w' = trace w ++
          [EvRequest (next_request this opts functions w);
           EvInvoke (fullFunction d) args;
           EvPush (messages opts) (function_message d text);
           EvSleep (backoff this (Math_random E (draws w)))]
      ∧ heap w' = alter (λ a, a ++ [function_message d text]) (messages opts)
                    (heap w)
      ∧ calls w' = S (calls w) ∧ draws w' = S (draws w).
Proof.
  intros H1 H2 H3 H4 H5 H6. run_round.
  rewrite H1, H2. simpl. rewrite H3, H4. simpl. rewrite H5, H6. simpl.
  eexists. split; [reflexivity |]. simpl.
  repeat rewrite <- app_assoc. auto.
Qed.


(** The same round with a function that throws when it is called without
    arguments: the error leaves the loop. *)
Lemma round_invalid_throws (shouldRetry : bool) (w : World) (resp : Response)
    (c : FunctionCall) (d : RegisteredFunctionType) (err e : JSError) :
  createChatCompletion E (calls w) (next_request this opts functions w) = Ok resp →
  first_function_call resp = Ok (Some c) →
  getFunction this (call_ref c) = Ok d →
  parse_arguments E d c = Throw err →
  fn_call (fullFunction d) JUndefined = Throw e →
  ∃ w', round E this opts functions shouldRetry w = (Throw e, w')
      ∧ trace w' = trace w ++
          [EvRequest (next_request this opts functions w);
           EvPush (messages opts) (invalid_arguments_message err);
           EvInvoke (fullFunction d) JUndefined].
Proof.
  intros H1 H2 H3 H4 H5. run_round.
  rewrite H1, H2. simpl. rewrite H3, H4. simpl. rewrite H5.
  eexists. split; [reflexivity |]. simpl.
  repeat rewrite <- app_assoc. reflexivity.
Qed.

(** *** What a round does to the caller's array *)

Lemma push_lookup (l : nat) (m : MessageOrString) (arr : list MessageOrString)
    (h : gmap nat (list MessageOrString)) :
  h !! l = Some arr → alter (λ a, a ++ [m]) l h = <[l := arr ++ [m]]> h.
Proof.
  intros Hl. apply map_eq. intros i.
  rewrite lookup_alter, lookup_insert.
  destruct (decide (l = i)) as [<- |]; [rewrite Hl |]; reflexivity.
Qed.

Lemma carries_app (l : nat) (arr : list MessageOrString) (evs1 evs2 : list Event) :
  carries this l arr (evs1 ++ evs2) ↔
  carries this l arr evs1 ∧ carries this l (arr ++ pushed l evs1) evs2.
Proof.
  revert arr. induction evs1 as [| ev evs1 IH]; intros arr; simpl.
  - rewrite app_nil_r. tauto.
  - destruct ev as [r | f args | l' m | ms]; simpl.
    + rewrite IH. tauto.
    + apply IH.
    + rewrite IH. destruct (decide (l' = l)); simpl.
      * rewrite <- app_assoc. reflexivity.
      * reflexivity.
    + apply IH.
Qed.

Lemma pushed_app (l : nat) (evs1 evs2 : list Event) :
  pushed l (evs1 ++ evs2) = pushed l evs1 ++ pushed l evs2.
Proof. apply omap_app. Qed.

(** Whatever its result, a round sends one request, which carries the array
    as it is, and leaves the array longer by what it pushed. *)
Lemma round_effects (shouldRetry : bool) (w w' : World)
    (r : Res (Response * bool)) (arr : list MessageOrString) :
  heap w !! messages opts = Some arr →
  round E this opts functions shouldRetry w = (r, w') →
  ∃ evs, trace w' = trace w ++ evs
       ∧ heap w' = <[messages opts := arr ++ pushed (messages opts) evs]> (heap w)
       ∧ carries this (messages opts) arr evs
       ∧ calls w' = S (calls w).
Proof.
  intros Hl H.
  assert (Hsame : <[messages opts := arr ++ []]> (heap w) = heap w).
  { rewrite app_nil_r. apply insert_id, Hl. }
  revert H. run_round. rewrite Hl. simpl.
  repeat split_round.
  all: intros [= <- <-]; simpl.
  all: eexists; split; [rewrite <- ?app_assoc; simpl; reflexivity |].
  all: simpl; rewrite ?decide_True by reflexivity.
  all: repeat split; try reflexivity.
  all: rewrite ?(push_lookup _ _ arr (heap w)) by assumption; try (symmetry; exact Hsame).
  all: try (erewrite push_lookup by apply lookup_insert_eq).
  all: rewrite ?insert_insert_eq, <- ?app_assoc; try reflexivity.
Qed.
(** A round pushes nothing but its two kinds of message. *)
Lemma round_pushes (shouldRetry : bool) (w w' : World)
    (r : Res (Response * bool)) :
  round E this opts functions shouldRetry w = (r, w') →
  ∃ evs, trace w' = trace w ++ evs
       ∧ Forall pushed_by_loop (pushed (messages opts) evs).
Proof.
  run_round. repeat split_round.
  all: intros [= <- <-]; simpl.
  all: eexists; split; [rewrite <- ?app_assoc; simpl; reflexivity |].
  all: simpl; rewrite ?decide_True by reflexivity.
  all: repeat (apply List.Forall_cons; [unfold pushed_by_loop; eauto |]).
  all: apply List.Forall_nil.
Qed.

(** *** The loop *)

Lemma do_while_effects (fuel : nat) (shouldRetry : bool) (w w' : World)
    (o : Outcome Response) (arr : list MessageOrString) :
  heap w !! messages opts = Some arr →
  do_while E fuel this opts functions shouldRetry w = (o, w') →
  ∃ evs, trace w' = trace w ++ evs
       ∧ heap w' = <[messages opts := arr ++ pushed (messages opts) evs]> (heap w)
       ∧ carries this (messages opts) arr evs
       ∧ Forall pushed_by_loop (pushed (messages opts) evs).
Proof.
  revert shouldRetry w arr.
  induction fuel as [| fuel IH]; intros shouldRetry w arr Hl; simpl.
  - intros [= <- <-]. exists []. rewrite !app_nil_r. simpl.
    rewrite insert_id by assumption. auto.
  - destruct (round E this opts functions shouldRetry w) as [r w1] eqn:Hround.
    destruct (round_effects _ _ _ _ _ Hl Hround) as (evs1 & Ht1 & Hh1 & Hc1 & _).
    destruct (round_pushes _ _ _ _ Hround) as (evs1' & Ht1' & Hp1).
    assert (evs1' = evs1) as -> by (rewrite Ht1 in Ht1'; eapply app_inv_head, eq_sym, Ht1').
    destruct r as [[resp shouldRetry'] | e].
    + destruct (again this shouldRetry').
      * intros Hrest.
        assert (Hl1 : heap w1 !! messages opts =
                      Some (arr ++ pushed (messages opts) evs1))
          by (rewrite Hh1; apply lookup_insert_eq).
        destruct (IH _ _ _ Hl1 Hrest) as (evs2 & Ht2 & Hh2 & Hc2 & Hp2).
        exists (evs1 ++ evs2). rewrite pushed_app.
        repeat split.
        -- rewrite Ht2, Ht1, app_assoc. reflexivity.
        -- rewrite Hh2, Hh1, insert_insert_eq, app_assoc. reflexivity.
        -- apply carries_app. auto.
        -- apply Forall_app. auto.
      * intros [= <- <-]. exists evs1. auto.
    + intros [= <- <-]. exists evs1. auto.
Qed.

(** With a service that keeps sending arguments that do not pass, every
    round asks for another one: [retryAttempts] stays what it was. *)
Lemma do_while_unfinished (fuel : nat) (shouldRetry : bool) (w : World) :
  always_invalid E this →
  retryAttempts this < retryLimit this →
  ∃ w', do_while E fuel this opts functions shouldRetry w = (Unfinished, w')
      ∧ length (requests (trace w')) = (length (requests (trace w)) + fuel)%nat.
Proof.
  intros Hinv Hlt. revert shouldRetry w.
  induction fuel as [| fuel IH]; intros shouldRetry w; simpl.
  - exists w. split; [reflexivity | lia].
  - destruct (Hinv (calls w) (next_request this opts functions w))
      as (resp & c & d & err & res & text & H1 & H2 & H3 & H4 & H5 & H6).
    destruct (round_invalid shouldRetry w _ _ _ _ _ _ H1 H2 H3 H4 H5 H6)
      as (w1 & -> & Ht & _).
    unfold again. simpl.
    replace (retryAttempts this <? retryLimit this) with true
      by (symmetry; apply Z.ltb_lt, Hlt).
    destruct (IH true w1) as (w' & Hrun & Hlen).
    exists w'. split; [exact Hrun |].
    rewrite Hlen, Ht. unfold requests. rewrite omap_app, length_app. simpl. lia.
Qed.

End Loop.

(** * The claims *)

(** ** The registry *)

(** C1, which the code does not meet: once [getWeather] is registered its
    descriptor is in the registry and [getFunction] finds it, yet
    [listFunctions] returns the empty sequence, and so the request that
    [chat] sends, with functions allowed, offers no function. *)
Theorem listFunctions_misses_registered :
  getFunction Examples.with_zod (RefName "getWeather") =
    Ok (mkRegistered "getWeather" Examples.getWeather (Zod Examples.city_zod)
          Examples.city_document)
  ∧ listFunctions Examples.with_zod = Ok []
  ∧ map req_functions
      (requests (trace (chat Examples.valid_service 1 Examples.with_zod
                          Examples.opts Examples.start).2))
    = [[]].
Proof. repeat split; vm_compute; reflexivity. Qed.

(** C9 as it is written fails: a function without a name is stored under
    the empty name. *)
Lemma anonymous_function_has_empty_name :
  ¬ named_and_derived Examples.silent_service
      (run Examples.silent_service
         [Register Examples.anonymous (JSONSchema Examples.city_document)]
         (constructor None)).
Proof.
  intros H.
  destruct (H EmptyString
              (mkRegistered EmptyString Examples.anonymous
                 (JSONSchema Examples.city_document) Examples.city_document))
    as [Hname _].
  - vm_compute. reflexivity.
  - apply Hname. reflexivity.
Qed.

(** C9, amended: after any sequence of registrations and deregistrations,
    every stored descriptor is stored under its name, its name is the name
    of its function (empty when the function has none), and its wire schema
    is derived from its schema: the schema itself when that is a plain
    document, its conversion when it is a Zod schema. *)
Theorem stored_descriptors_named_and_derived (E : Env) (ops : list Operation)
    (s : option string) (k : string) (d : RegisteredFunctionType) :
  Map_get k (registeredFunctions (run E ops (constructor s))) = Some d →
  name d = k
  ∧ name d = fn_name (fullFunction d)
  ∧ jsonSchema d =
      match schema d with
      | Zod z => zodToJsonSchema E z
      | JSONSchema doc => doc
      end.
Proof.
  intros Hget.
  apply (stored_ok_run E ops (constructor s) (stored_ok_constructor E s) k d Hget).
Qed.

Lemma stored_descriptors_witness :
  Map_get "getWeather"
    (registeredFunctions
       (run Examples.silent_service
          [Register Examples.getWeather (JSONSchema Examples.city_document);
           Deregister (RefName "getWeather");
           Register Examples.getWeather (Zod Examples.city_zod)]
          (constructor None)))
  = Some (mkRegistered "getWeather" Examples.getWeather (Zod Examples.city_zod)
            Examples.city_document)
  ∧ jsonSchema (mkRegistered "getWeather" Examples.getWeather
                  (Zod Examples.city_zod) Examples.city_document)
    = zodToJsonSchema Examples.silent_service Examples.city_zod.
Proof.
  assert (Hget :
    Map_get "getWeather"
      (registeredFunctions
         (run Examples.silent_service
            [Register Examples.getWeather (JSONSchema Examples.city_document);
             Deregister (RefName "getWeather");
             Register Examples.getWeather (Zod Examples.city_zod)]
            (constructor None)))
    = Some (mkRegistered "getWeather" Examples.getWeather (Zod Examples.city_zod)
              Examples.city_document))
    by (vm_compute; reflexivity).
  split; [exact Hget |].
  exact (proj2 (proj2 (stored_descriptors_named_and_derived
                         Examples.silent_service _ None "getWeather" _ Hget))).
Defined.

(** ** Validation *)

(** C4: for a descriptor whose schema is a plain document, whatever
    [JSON.parse] returns for the argument text is the result of validation,
    with no look at the document; in the round, the function is then called
    with that value right after the request, before any message is
    pushed. *)
Theorem plain_schema_accepts_any_json (E : Env) (d : RegisteredFunctionType)
    (c : FunctionCall) (doc json : JSValue) :
  schema d = JSONSchema doc →
  JSON_parse E (arguments_text c) = Ok json →
  parse_arguments E d c = Ok json
  ∧ ∀ this opts functions shouldRetry w resp,
      createChatCompletion E (calls w) (next_request this opts functions w) = Ok resp →
      first_function_call resp = Ok (Some c) →
      getFunction this (call_ref c) = Ok d →
      ∃ evs,
        trace (round E this opts functions shouldRetry w).2 =
          trace w ++ EvRequest (next_request this opts functions w)
                  :: EvInvoke (fullFunction d) json :: evs.
Proof.
  intros Hschema Hparse.
  assert (Hargs : parse_arguments E d c = Ok json).
  { unfold parse_arguments. rewrite Hparse. simpl. rewrite Hschema. reflexivity. }
  split; [exact Hargs |].
  intros this opts functions shouldRetry w resp H1 H2 H3.
  run_round. rewrite H1, H2. simpl. rewrite H3, Hargs. simpl.
  repeat split_round.
  all: eexists; rewrite <- ?app_assoc; simpl; reflexivity.
Qed.

Lemma plain_schema_witness :
  schema (mkRegistered "getWeather" Examples.getWeather
            (JSONSchema Examples.city_document) Examples.city_document)
    = JSONSchema Examples.city_document
  ∧ JSON_parse Examples.rejected_service
      (arguments_text (mkCall (Some "getWeather") (Some "5"))) = Ok (JNum 5)
  ∧ parse_arguments Examples.rejected_service
      (mkRegistered "getWeather" Examples.getWeather
         (JSONSchema Examples.city_document) Examples.city_document)
      (mkCall (Some "getWeather") (Some "5")) = Ok (JNum 5).
Proof.
  split; [reflexivity |]. split; [reflexivity |].
  exact (proj1 (plain_schema_accepts_any_json Examples.rejected_service
                  (mkRegistered "getWeather" Examples.getWeather
                     (JSONSchema Examples.city_document) Examples.city_document)
                  (mkCall (Some "getWeather") (Some "5"))
                  Examples.city_document (JNum 5) eq_refl eq_refl)).
Defined.

(** C2, which the code does not meet: the descriptor has a Zod schema and
    the arguments [5] fail it; the round pushes the message about invalid
    arguments and then goes on to call the function, with [undefined]. *)
Theorem rejected_arguments_still_invoke :
  parse_arguments Examples.rejected_service
    (mkRegistered "getWeather" Examples.getWeather (Zod Examples.city_zod)
       Examples.city_document)
    (mkCall (Some "getWeather") (Some "5"))
  = Throw (mkError ZodError "Expected object")
  ∧ invocations
      (trace (round Examples.rejected_service Examples.with_zod Examples.opts
                [] false Examples.start).2)
    = [("getWeather", JUndefined)].
Proof. split; vm_compute; reflexivity. Qed.

(** C8, which the code does not meet, by the same fall-through as C2: in
    the round above the function is called and returns, and the
    conversation has grown by two messages, the one about invalid arguments
    and the function message. *)
Theorem rejected_round_pushes_two :
  ∃ resp w',
    round Examples.rejected_service Examples.with_zod Examples.opts [] false
      Examples.start = (Ok (resp, true), w')
    ∧ invocations (trace w') = [("getWeather", JUndefined)]
    ∧ heap w' !! 0%nat =
        Some [MString "Weather in Paris?";
              invalid_arguments_message (mkError ZodError "Expected object");
              function_message
                (mkRegistered "getWeather" Examples.getWeather
                   (Zod Examples.city_zod) Examples.city_document)
                (Some Examples.weather_text)].
Proof. do 2 eexists. repeat split; vm_compute; reflexivity. Qed.

(** When the arguments pass, a round in which the function returns pushes
    the function message and nothing else. *)
Lemma valid_round_pushes_one (E : Env) (this : SmolAI) (opts : Opts)
    (functions : list RegisteredFunctionType) (shouldRetry : bool) (w : World)
    (resp : Response) (c : FunctionCall) (d : RegisteredFunctionType)
    (args res : JSValue) (text : option string) (arr : list MessageOrString) :
  heap w !! messages opts = Some arr →
  createChatCompletion E (calls w) (next_request this opts functions w) = Ok resp →
  first_function_call resp = Ok (Some c) →
  getFunction this (call_ref c) = Ok d →
  parse_arguments E d c = Ok args →
  fn_call (fullFunction d) args = Ok res →
  JSON_stringify E res = Ok text →
  heap (round E this opts functions shouldRetry w).2 !! messages opts =
    Some (arr ++ [MMessage (mkMessage function (Some (name d)) text)]).
Proof.
  intros Hl H1 H2 H3 H4 H5 H6.
  destruct (round_valid E this opts functions shouldRetry w _ _ _ _ _ _
              H1 H2 H3 H4 H5 H6) as (w' & Hround & _ & Hheap & _).
  rewrite Hround. simpl. rewrite Hheap, lookup_alter, decide_True by reflexivity.
  rewrite Hl. reflexivity.
Qed.

(** ** Errors that end the loop *)

(** C5: when the first response selects a name that is not in the registry,
    [chat] throws the error of [getFunction] in its first round: one request
    has been sent and nothing else has happened, the caller's arrays are as
    they were. *)
Theorem unknown_function_aborts (E : Env) (fuel : nat) (this : SmolAI)
    (opts : Opts) (w : World) (functions : list RegisteredFunctionType)
    (resp : Response) (c : FunctionCall) (fname : string) :
  listFunctions this = Ok functions →
  createChatCompletion E (calls w) (next_request this opts functions w) = Ok resp →
  first_function_call resp = Ok (Some c) →
  fc_name c = Some fname →
  Map_get fname (registeredFunctions this) = None →
  ∃ w', chat E (S fuel) this opts w = (Threw (not_found (RefName fname)), w')
      ∧ trace w' = trace w ++ [EvRequest (next_request this opts functions w)]
      ∧ heap w' = heap w
      ∧ calls w' = S (calls w).
Proof.
  intros Hlist H1 H2 Hname Hget.
  assert (H3 : getFunction this (call_ref c) = Throw (not_found (RefName fname))).
  { unfold getFunction, call_ref. rewrite Hname. simpl. rewrite Hget. reflexivity. }
  unfold chat. rewrite Hlist. simpl.
  rewrite (round_no_function E this opts functions false w resp c _ H1 H2 H3).
  eexists. split; [reflexivity |]. simpl. auto.
Qed.

Lemma unknown_function_witness :
  ∃ w', chat Examples.unknown_service 6 Examples.with_zod Examples.opts
          Examples.start
        = (Threw (mkError PlainError
                    "smolChat error - function doThing not found. Please report a bug."),
           w')
      ∧ trace w' =
          trace Examples.start ++
          [EvRequest (next_request Examples.with_zod Examples.opts [] Examples.start)]
      ∧ heap w' = heap Examples.start
      ∧ calls w' = S (calls Examples.start).
Proof.
  apply (unknown_function_aborts Examples.unknown_service 5 Examples.with_zod
           Examples.opts Examples.start []
           (Examples.reply (Examples.select "doThing" Examples.paris_text))
           (mkCall (Some "doThing") (Some Examples.paris_text)) "doThing");
    vm_compute; reflexivity.
Defined.

(** C6: a round whose response has a first choice without a function call
    throws, on reading the name of the missing call, a [TypeError], which is
    none of the errors of [getFunction]; the loop ends there, after the
    request, with nothing pushed. *)
Theorem missing_function_call_aborts (E : Env) (fuel : nat) (this : SmolAI)
    (opts : Opts) (functions : list RegisteredFunctionType)
    (shouldRetry : bool) (w : World) (resp : Response) :
  createChatCompletion E (calls w) (next_request this opts functions w) = Ok resp →
  first_function_call resp = Ok None →
  ∃ w', do_while E (S fuel) this opts functions shouldRetry w
        = (Threw (undefined_read "name"), w')
      ∧ trace w' = trace w ++ [EvRequest (next_request this opts functions w)]
      ∧ heap w' = heap w
      ∧ err_class (undefined_read "name") = TypeError
      ∧ ∀ func, undefined_read "name" ≠ not_found func.
Proof.
  intros H1 H2. simpl.
  rewrite (round_no_call E this opts functions shouldRetry w resp H1 H2).
  eexists. split; [reflexivity |]. simpl.
  repeat split. intros func. discriminate.
Qed.

Lemma missing_function_call_witness :
  ∃ w', do_while Examples.silent_service 6 Examples.with_zod Examples.opts []
          false Examples.start
        = (Threw (mkError TypeError
                    "Cannot read properties of undefined (reading 'name')"), w')
      ∧ trace w' =
          trace Examples.start ++
          [EvRequest (next_request Examples.with_zod Examples.opts [] Examples.start)]
      ∧ heap w' = heap Examples.start
      ∧ err_class (undefined_read "name") = TypeError
      ∧ ∀ func, undefined_read "name" ≠ not_found func.
Proof.
  apply (missing_function_call_aborts Examples.silent_service 5 Examples.with_zod
           Examples.opts [] false Examples.start (Examples.reply None));
    vm_compute; reflexivity.
Defined.

(** ** Retries *)

(** C3, which the code does not meet: [getWeather] is registered, the limit
    is 5, and the service always answers with arguments that do not parse.
    However many rounds are allowed, [chat] has sent that many requests and
    has not returned. *)
Theorem malformed_arguments_never_return (fuel : nat) :
  retryLimit Examples.with_zod = 5
  ∧ ∃ w', chat Examples.malformed_service fuel Examples.with_zod Examples.opts
            Examples.start = (Unfinished, w')
        ∧ length (requests (trace w')) = fuel.
Proof.
  split; [reflexivity |].
  assert (Hinv : always_invalid Examples.malformed_service Examples.with_zod).
  { intros n req.
    exists (Examples.reply (Examples.select "getWeather" "{")),
      (mkCall (Some "getWeather") (Some "{")),
      (mkRegistered "getWeather" Examples.getWeather (Zod Examples.city_zod)
         Examples.city_document),
      (mkError SyntaxError "Unexpected end of JSON input"),
      Examples.weather, (Some Examples.weather_text).
    repeat split; vm_compute; reflexivity. }
  unfold chat. replace (listFunctions Examples.with_zod) with
    (Ok (@nil RegisteredFunctionType)) by (vm_compute; reflexivity).
  destruct (do_while_unfinished Examples.malformed_service Examples.with_zod
              Examples.opts [] fuel false Examples.start Hinv)
    as (w' & Hrun & Hlen); [vm_compute; reflexivity |].
  exists w'. split; [exact Hrun | exact Hlen].
Qed.

(** ** The wait *)

(** Below [2 ^ 53] the sum of the wait is the sum of the integers. *)
Lemma backoff_exact (this : SmolAI) (r : Float64.Double) :
  0 <= retryAttempts this * retryDelay this →
  0 <= jitter r →
  retryAttempts this * retryDelay this + jitter r < 2 ^ 53 →
  backoff this r =
    Float64.Finite (retryAttempts this * retryDelay this + jitter r).
Proof.
  intros Hbase Hjitter Hsmall.
  unfold backoff, Float64.mul_ints, Float64.round_int.
  rewrite Z.abs_eq by exact Hbase.
  replace (retryAttempts this * retryDelay this <? 2 ^ 53) with true
    by (symmetry; apply Z.ltb_lt; lia).
  unfold Float64.add_int, Float64.round_int.
  rewrite Z.abs_eq by lia.
  replace (retryAttempts this * retryDelay this + jitter r <? 2 ^ 53) with true
    by (symmetry; apply Z.ltb_lt; lia).
  reflexivity.
Qed.

(** Rounding of integers: exact below [2 ^ 53], to the even neighbour at a
    tie, to infinity at an overflow. *)
Example round_int_samples :
  Float64.round_int (2 ^ 53 - 1) = Float64.Finite (2 ^ 53 - 1)
  ∧ Float64.round_int (2 ^ 53 + 1) = Float64.Finite (2 ^ 53)
  ∧ Float64.round_int (2 ^ 53 + 3) = Float64.Finite (2 ^ 53 + 4)
  ∧ Float64.round_int (- (2 ^ 53 + 3)) = Float64.Finite (- (2 ^ 53 + 4))
  ∧ Float64.mul_ints (2 ^ 600) (2 ^ 600) = Float64.PlusInfinity
  ∧ Float64.add_int (Float64.mul_ints (2 ^ 53) 1) 99
    = Float64.Finite (2 ^ 53 + 100).
Proof. repeat split; vm_compute; reflexivity. Qed.

(** C7 as it is written fails: the wait is a sum of doubles.  With
    [retryAttempts] at [2 ^ 53], [retryDelay] at 1 and the largest draw of
    [Math.random], the sum [2 ^ 53 + 99] is rounded to [2 ^ 53 + 100], which
    is the bound and not below it. *)
Lemma backoff_reaches_bound :
  last (trace (round Examples.valid_service Examples.persistent Examples.opts
                 [] false Examples.start).2)
    = Some (EvSleep (Float64.Finite (2 ^ 53 + 100)))
  ∧ ¬ (2 ^ 53 + 100
       < retryAttempts Examples.persistent * retryDelay Examples.persistent + 100).
Proof.
  split.
  - vm_compute. reflexivity.
  - vm_compute. discriminate.
Qed.

(** C7, amended: a round that does not throw, whether its arguments passed
    or not, ends with a wait, the only one of the round, of
    [retryAttempts * retryDelay + Math.floor(Math.random() * 100)]
    milliseconds; with a counter and a delay that are integers, not
    negative and with [retryAttempts * retryDelay + 100] at most [2 ^ 53],
    and a random number in the range of [Math.random], the wait is at least
    0 and less than [retryAttempts * retryDelay + 100]. *)
Theorem backoff_in_range (E : Env) (this : SmolAI) (opts : Opts)
    (functions : list RegisteredFunctionType) (shouldRetry shouldRetry' : bool)
    (w w' : World) (resp : Response) :
  round E this opts functions shouldRetry w = (Ok (resp, shouldRetry'), w') →
  Float64.is_double (Math_random E (draws w)) = true →
  Float64.lt_one (Math_random E (draws w)) = true →
  0 <= retryAttempts this →
  0 <= retryDelay this →
  retryAttempts this * retryDelay this + 100 <= 2 ^ 53 →
  ∃ ms : Z,
    last (trace w') = Some (EvSleep (Float64.Finite ms))
    ∧ sleeps (trace w') = sleeps (trace w) ++ [Float64.Finite ms]
    ∧ backoff this (Math_random E (draws w)) = Float64.Finite ms
    ∧ ms = retryAttempts this * retryDelay this
           + Float64.floor (Float64.mul_int (Math_random E (draws w)) 100)
    ∧ 0 <= ms < retryAttempts this * retryDelay this + 100.
Proof.
  intros Hround Hdouble Hrange Hattempts Hdelay Hsafe.
  pose proof (jitter_range _ Hdouble Hrange) as Hjitter.
  assert (Hbase : 0 <= retryAttempts this * retryDelay this) by nia.
  pose proof (backoff_exact this (Math_random E (draws w)) Hbase
                ltac:(unfold jitter; lia) ltac:(unfold jitter; lia)) as Hexact.
  exists (retryAttempts this * retryDelay this + jitter (Math_random E (draws w))).
  rewrite <- Hexact.
  revert Hround. run_round. repeat split_round.
  all: intros [= <- <- <-]; simpl.
  all: split; [apply last_snoc |].
  all: split; [unfold sleeps; rewrite !omap_app; simpl;
               rewrite ?app_nil_r; reflexivity |].
  all: split; [reflexivity |].
  all: unfold jitter; split; [reflexivity | lia].
Qed.

Lemma backoff_witness :
  ∃ ms : Z,
    last (trace (round Examples.rejected_service Examples.with_zod Examples.opts
                   [] false Examples.start).2) = Some (EvSleep (Float64.Finite ms))
    ∧ ms = 99
    ∧ 0 <= ms < 0 * 200 + 100.
Proof.
  destruct (backoff_in_range Examples.rejected_service Examples.with_zod
              Examples.opts [] false true Examples.start
              (round Examples.rejected_service Examples.with_zod Examples.opts
                 [] false Examples.start).2
              (Examples.reply (Examples.select "getWeather" "5")))
    as (ms & Hlast & _ & _ & Hms & Hrange); try (vm_compute; reflexivity).
  - vm_compute. discriminate.
  - vm_compute. discriminate.
  - vm_compute. discriminate.
  - exists ms. split; [exact Hlast |]. split; [exact Hms | exact Hrange].
Defined.

(** ** The caller's array *)

(** What one round does to the caller's array: it appends what the answer
    to its request calls for. *)
Lemma round_appends (E : Env) (this : SmolAI) (opts : Opts)
    (functions : list RegisteredFunctionType) (shouldRetry : bool)
    (w w' : World) (r : Res (Response * bool)) (arr : list MessageOrString) :
  heap w !! messages opts = Some arr →
  round E this opts functions shouldRetry w = (r, w') →
  ∃ evs, trace w' = trace w ++ evs
       ∧ requests evs = [next_request this opts functions w]
       ∧ calls w' = S (calls w)
       ∧ pushed (messages opts) evs =
           appended E this
             (createChatCompletion E (calls w) (next_request this opts functions w))
       ∧ heap w' =
           <[messages opts :=
               arr ++ appended E this
                        (createChatCompletion E (calls w)
                           (next_request this opts functions w))]> (heap w).
Proof.
  intros Hl.
  assert (Hsame : <[messages opts := arr ++ []]> (heap w) = heap w).
  { rewrite app_nil_r. apply insert_id, Hl. }
  unfold appended, result_message, function_message.
  run_round. rewrite Hl. simpl.
  repeat split_round.
  all: intros [= <- <-]; simpl.
  all: eexists; split; [rewrite <- ?app_assoc; simpl; reflexivity |].
  all: simpl; rewrite ?decide_True by reflexivity.
  all: repeat split; try reflexivity.
  all: rewrite ?(push_lookup _ _ arr (heap w)) by assumption;
       try (symmetry; exact Hsame).
  all: try (erewrite push_lookup by apply lookup_insert_eq).
  all: rewrite ?insert_insert_eq, <- ?app_assoc; try reflexivity.
Qed.

Lemma do_while_conversation (E : Env) (this : SmolAI) (opts : Opts)
    (functions : list RegisteredFunctionType) (fuel : nat) (shouldRetry : bool)
    (w w' : World) (o : Outcome Response) (arr : list MessageOrString) :
  heap w !! messages opts = Some arr →
  do_while E fuel this opts functions shouldRetry w = (o, w') →
  ∃ evs, trace w' = trace w ++ evs
       ∧ (calls w' = calls w + length (requests evs))%nat
       ∧ carried E this (calls w) arr (requests evs)
       ∧ heap w' =
           <[messages opts := conversation E this (calls w) arr (requests evs)]>
             (heap w)
       ∧ conversation E this (calls w) arr (requests evs) =
           arr ++ pushed (messages opts) evs.
Proof.
  revert shouldRetry w arr.
  induction fuel as [| fuel IH]; intros shouldRetry w arr Hl; simpl.
  - intros [= <- <-]. exists []. rewrite !app_nil_r. simpl.
    rewrite insert_id by assumption. repeat split; lia.
  - destruct (round E this opts functions shouldRetry w) as [r w1] eqn:Hround.
    destruct (round_appends _ _ _ _ _ _ _ _ _ Hl Hround)
      as (evs1 & Ht1 & Hr1 & Hc1 & Hp1 & Hh1).
    assert (Hfirst :
      req_messages (next_request this opts functions w) =
        mkMessage system None (Some (systemMessage this)) :: map coerce arr)
      by (unfold next_request; rewrite Hl; reflexivity).
    assert (Hone : ∃ evs, trace w1 = trace w ++ evs
       ∧ (calls w1 = calls w + length (requests evs))%nat
       ∧ carried E this (calls w) arr (requests evs)
       ∧ heap w1 =
           <[messages opts := conversation E this (calls w) arr (requests evs)]>
             (heap w)
       ∧ conversation E this (calls w) arr (requests evs) =
           arr ++ pushed (messages opts) evs).
    { exists evs1. rewrite Hr1, Hp1. simpl. repeat split; try lia; assumption. }
    destruct r as [[resp sr] | e]; [| intros [= <- <-]; exact Hone].
    destruct (again this sr); [| intros [= <- <-]; exact Hone].
    intros Hrest. clear Hone.
    assert (Hl1 : heap w1 !! messages opts =
                  Some (arr ++ appended E this
                                 (createChatCompletion E (calls w)
                                    (next_request this opts functions w))))
      by (rewrite Hh1; apply lookup_insert_eq).
    destruct (IH _ _ _ Hl1 Hrest) as (evs2 & Ht2 & Hc2 & Hcar2 & Hh2 & Hconv2).
    assert (Hreq : requests (evs1 ++ evs2) =
                   next_request this opts functions w :: requests evs2)
      by (unfold requests in *; rewrite omap_app, Hr1; reflexivity).
    exists (evs1 ++ evs2). rewrite Hreq. simpl. rewrite <- Hc1.
    repeat split.
    + rewrite Ht2, Ht1, app_assoc. reflexivity.
    + rewrite Hc2, Hc1. lia.
    + exact Hfirst.
    + exact Hcar2.
    + rewrite Hh2, Hh1, insert_insert_eq. reflexivity.
    + rewrite Hconv2, pushed_app, Hp1, app_assoc. reflexivity.
Qed.



(** The caller's array after two rounds with arguments that fail the schema:
    each round has appended its message about invalid arguments and its
    function message. *)
Example two_rounds_on_callers_array :
  heap (chat Examples.rejected_service 2 Examples.with_zod Examples.opts
          Examples.start).2 !! 0%nat
  = Some [MString "Weather in Paris?";
          invalid_arguments_message (mkError ZodError "Expected object");
          MMessage (mkMessage function (Some "getWeather")
                      (Some Examples.weather_text));
          invalid_arguments_message (mkError ZodError "Expected object");
          MMessage (mkMessage function (Some "getWeather")
                      (Some Examples.weather_text))].
Proof. vm_compute. reflexivity. Qed.

(** Scenario A of the specification: one round, and the caller's array has
    gained the function message with content [{"tempC":18}]. *)
Example scenario_A :
  ∃ w', chat Examples.valid_service 6 Examples.with_zod Examples.opts
          Examples.start
        = (Returned (Examples.reply
                       (Examples.select "getWeather" Examples.paris_text)), w')
      ∧ calls w' = 1%nat
      ∧ invocations (trace w') = [("getWeather", Examples.paris)]
      ∧ heap w' !! 0%nat =
          Some [MString "Weather in Paris?";
                MMessage (mkMessage function (Some "getWeather")
                            (Some Examples.weather_text))].
Proof. eexists. repeat split; vm_compute; reflexivity. Qed.

(** Two rounds with arguments that fail the schema: the second request
    carries the system message, the caller's message and the two messages
    pushed in the first round. *)
Example second_request_carries_pushed :
  map (λ r, length (req_messages r))
    (requests (trace (chat Examples.rejected_service 2 Examples.with_zod
                        Examples.opts Examples.start).2))
  = [2%nat; 4%nat].
Proof. vm_compute. reflexivity. Qed.


(** * Further properties of the registry *)

(** [getFunction] goes by the key of its argument. *)
Lemma getFunction_key (this : SmolAI) (ref : FunctionRef) (k : string) :
  ref_key ref = Some k →
  getFunction this ref =
    match Map_get k (registeredFunctions this) with
    | Some fn => Ok fn
    | None => Throw (not_found ref)
    end.
Proof. intros Hkey. unfold getFunction. rewrite Hkey. reflexivity. Qed.

Lemma getFunction_undefined (this : SmolAI) (ref : FunctionRef) :
  ref_key ref = None → getFunction this ref = Throw (not_found ref).
Proof. intros Hkey. unfold getFunction. rewrite Hkey. reflexivity. Qed.

(** X1: after [addFunction(func, schema)], looking up the name of [func], by
    the name or by any function of that name, returns the new descriptor,
    whatever was registered under the name before. *)
Theorem lookup_after_register (E : Env) (func : Function)
    (sch : RegisteredFunctionSchema) (this : SmolAI) (ref : FunctionRef) :
  ref_key ref = Some (fn_name func) →
  getFunction (addFunction E func sch this) ref =
    Ok (mkRegistered (fn_name func) func sch (derived E sch)).
Proof.
  intros Hkey. rewrite (getFunction_key _ _ _ Hkey).
  rewrite addFunction_get, decide_True by reflexivity. reflexivity.
Qed.

Lemma lookup_after_register_witness :
  getFunction
    (addFunction Examples.silent_service Examples.getWeatherFahrenheit
       (JSONSchema Examples.city_document) Examples.with_zod)
    (RefFunction Examples.getWeather)
  = Ok (mkRegistered "getWeather" Examples.getWeatherFahrenheit
          (JSONSchema Examples.city_document) Examples.city_document).
Proof.
  apply (lookup_after_register Examples.silent_service
           Examples.getWeatherFahrenheit (JSONSchema Examples.city_document)
           Examples.with_zod (RefFunction Examples.getWeather)).
  reflexivity.
Defined.

(** X2: [addFunction] leaves every other name as it was: a lookup under
    another key, or of [undefined], gives what it gave before. *)
Theorem register_keeps_other_names (E : Env) (func : Function)
    (sch : RegisteredFunctionSchema) (this : SmolAI) (ref : FunctionRef) :
  ref_key ref ≠ Some (fn_name func) →
  getFunction (addFunction E func sch this) ref = getFunction this ref.
Proof.
  intros Hkey. destruct (ref_key ref) as [k |] eqn:Hk.
  - rewrite !(getFunction_key _ _ _ Hk).
    rewrite addFunction_get, decide_False by congruence. reflexivity.
  - rewrite !getFunction_undefined by exact Hk. reflexivity.
Qed.

Lemma register_keeps_other_names_witness :
  getFunction
    (addFunction Examples.silent_service Examples.getTime
       (JSONSchema JNull) Examples.with_zod)
    (RefName "getWeather")
  = getFunction Examples.with_zod (RefName "getWeather").
Proof.
  apply (register_keeps_other_names Examples.silent_service Examples.getTime
           (JSONSchema JNull) Examples.with_zod (RefName "getWeather")).
  vm_compute. discriminate.
Defined.

(** X3: after [deregisterFunction(func)], [getFunction(func)] throws its
    not-found error, whether [func] was registered or not. *)
Theorem lookup_after_deregister (func : FunctionRef) (this : SmolAI) :
  getFunction (deregisterFunction func this) func = Throw (not_found func).
Proof.
  destruct (ref_key func) as [k |] eqn:Hkey.
  - rewrite (getFunction_key _ _ _ Hkey).
    rewrite deregisterFunction_get, Hkey, decide_True by reflexivity. reflexivity.
  - apply getFunction_undefined, Hkey.
Qed.

(** X4: deregistering what is not registered changes nothing and does not
    throw. *)
Theorem deregister_absent (func : FunctionRef) (this : SmolAI) :
  getFunction this func = Throw (not_found func) →
  deregisterFunction func this = this.
Proof.
  unfold getFunction, deregisterFunction.
  destruct (ref_key func) as [k |]; simpl; [| reflexivity].
  destruct (Map_get k (registeredFunctions this)) eqn:Hget; [discriminate |].
  intros _. destruct this as [sm mo [data keys] rl rd ra]. simpl in *.
  unfold Map_delete, Map_get in *. simpl in *.
  rewrite delete_id by exact Hget. reflexivity.
Qed.

Lemma deregister_absent_witness :
  deregisterFunction (RefName "getTime") Examples.with_zod = Examples.with_zod.
Proof.
  apply (deregister_absent (RefName "getTime") Examples.with_zod).
  vm_compute. reflexivity.
Defined.

(** X5: [deregisterFunction] removes one key only: a lookup under another
    key gives what it gave before. *)
Theorem deregister_keeps_other_names (func ref : FunctionRef) (this : SmolAI) :
  ref_key ref ≠ ref_key func →
  getFunction (deregisterFunction func this) ref = getFunction this ref.
Proof.
  intros Hkey. destruct (ref_key ref) as [k |] eqn:Hk.
  - rewrite !(getFunction_key _ _ _ Hk).
    rewrite deregisterFunction_get, decide_False by congruence. reflexivity.
  - rewrite !getFunction_undefined by exact Hk. reflexivity.
Qed.

Lemma deregister_keeps_other_names_witness :
  getFunction (deregisterFunction (RefFunction Examples.getTime) Examples.with_zod)
    (RefName "getWeather")
  = getFunction Examples.with_zod (RefName "getWeather").
Proof.
  apply (deregister_keeps_other_names (RefFunction Examples.getTime)
           (RefName "getWeather") Examples.with_zod).
  vm_compute. discriminate.
Defined.

(** X6: registering twice under one name leaves the instance as the second
    registration alone would: the first descriptor is gone. *)
Theorem register_overwrites (E : Env) (f1 f2 : Function)
    (s1 s2 : RegisteredFunctionSchema) (this : SmolAI) :
  fn_name f1 = fn_name f2 →
  addFunction E f2 s2 (addFunction E f1 s1 this) = addFunction E f2 s2 this.
Proof.
  intros Hname. unfold addFunction, Map_set. simpl.
  rewrite Hname, insert_insert_eq. reflexivity.
Qed.

Lemma register_overwrites_witness :
  addFunction Examples.silent_service Examples.getWeatherFahrenheit
    (JSONSchema Examples.city_document)
    (addFunction Examples.silent_service Examples.getWeather
       (Zod Examples.city_zod) (constructor None))
  = addFunction Examples.silent_service Examples.getWeatherFahrenheit
      (JSONSchema Examples.city_document) (constructor None).
Proof.
  apply (register_overwrites Examples.silent_service Examples.getWeather
           Examples.getWeatherFahrenheit (Zod Examples.city_zod)
           (JSONSchema Examples.city_document) (constructor None)).
  reflexivity.
Defined.

(** X7: registering a function and then deregistering it, by itself or by
    its name, leaves the instance as the deregistration alone would. *)
Theorem deregister_undoes_register (E : Env) (func : Function)
    (sch : RegisteredFunctionSchema) (this : SmolAI) :
  deregisterFunction (RefFunction func) (addFunction E func sch this)
    = deregisterFunction (RefFunction func) this
  ∧ deregisterFunction (RefName (fn_name func)) (addFunction E func sch this)
    = deregisterFunction (RefName (fn_name func)) this.
Proof.
  unfold deregisterFunction, addFunction, Map_delete, Map_set. simpl.
  rewrite delete_insert_eq. split; reflexivity.
Qed.

(** X8: the system message of an instance is never empty: the constructor
    takes the message it is given when that is a non-empty string and its
    default otherwise, and no registry operation touches it. *)
Theorem system_message_never_empty (E : Env) (ops : list Operation)
    (s : option string) :
  systemMessage (run E ops (constructor s)) ≠ EmptyString
  ∧ systemMessage (run E ops (constructor s)) =
      match s with
      | Some t =>
          if decide (t = EmptyString)
          then systemMessage (constructor None) else t
      | None => systemMessage (constructor None)
      end.
Proof.
  assert (Hkeep : ∀ this, systemMessage (run E ops this) = systemMessage this).
  { unfold run. induction ops as [| op ops IH]; intros this; simpl; [reflexivity |].
    rewrite IH. destruct op as [func sch | func]; simpl; [reflexivity |].
    unfold deregisterFunction. destruct (ref_key func); reflexivity. }
  rewrite Hkeep. split.
  - destruct s as [t |]; simpl; [| discriminate].
    destruct (decide (t = EmptyString)); [discriminate | assumption].
  - destruct s as [t |]; reflexivity.
Qed.

(** X9: registering and deregistering change the registry and nothing else:
    the model, the system message and the three retry fields of the
    instance stay as they were. *)
Theorem registry_operations_keep_settings (E : Env) (ops : list Operation)
    (this : SmolAI) :
  model (run E ops this) = model this
  ∧ systemMessage (run E ops this) = systemMessage this
  ∧ retryLimit (run E ops this) = retryLimit this
  ∧ retryDelay (run E ops this) = retryDelay this
  ∧ retryAttempts (run E ops this) = retryAttempts this.
Proof.
  unfold run. revert this.
  induction ops as [| op ops IH]; intros this; simpl; [auto 6 |].
  destruct (IH (apply_operation E this op)) as (-> & -> & -> & -> & ->).
  destruct op as [func sch | func]; simpl; [auto 6 |].
  unfold deregisterFunction. destruct (ref_key func); auto 6.
Qed.

(** * Further properties of the loop *)

Section Rounds.

Context (E : Env).
Variables (this : SmolAI) (opts : Opts) (functions : list RegisteredFunctionType).

(** A round that ends normally returns the response of the service to its
    request, and [shouldRetry] is never reset. *)
Lemma round_response (shouldRetry shouldRetry' : bool) (w w' : World)
    (resp : Response) :
  round E this opts functions shouldRetry w = (Ok (resp, shouldRetry'), w') →
  createChatCompletion E (calls w) (next_request this opts functions w) = Ok resp
  ∧ calls w' = S (calls w)
  ∧ (shouldRetry = true → shouldRetry' = true).
Proof.
  run_round. repeat split_round.
  all: intros [= <- <- <-]; simpl; auto.
Qed.

(** Once the loop test holds with [shouldRetry] set, it holds after every
    round: the loop does not return. *)
Lemma do_while_stuck (fuel : nat) (w w' : World) (resp : Response) :
  again this true = true →
  do_while E fuel this opts functions true w ≠ (Returned resp, w').
Proof.
  intros Hagain. revert w.
  induction fuel as [| fuel IH]; intros w; simpl; [discriminate |].
  destruct (round E this opts functions true w) as [[[resp1 sr] | e] w1] eqn:Hround;
    [| discriminate].
  destruct (round_response _ _ _ _ _ Hround) as (_ & _ & Hsr).
  rewrite (Hsr eq_refl), Hagain. apply IH.
Qed.

Lemma do_while_returned (fuel : nat) (shouldRetry : bool) (w w' : World)
    (resp : Response) :
  do_while E fuel this opts functions shouldRetry w = (Returned resp, w') →
  createChatCompletion E (calls w) (next_request this opts functions w) = Ok resp
  ∧ calls w' = S (calls w).
Proof.
  destruct fuel as [| fuel]; simpl; [discriminate |].
  destruct (round E this opts functions shouldRetry w)
    as [[[resp1 sr] | e] w1] eqn:Hround; [| discriminate].
  destruct (round_response _ _ _ _ _ Hround) as (Hresp & Hcalls & _).
  destruct (again this sr) eqn:Hagain.
  - intros Hrest. exfalso.
    assert (sr = true) as -> by (unfold again in Hagain; destruct sr; [reflexivity | discriminate]).
    exact (do_while_stuck _ _ _ _ Hagain Hrest).
  - intros [= <- <-]. auto.
Qed.

(** What one round adds to the trace: one request, built from the array, and
    behind it at most one call, one wait and two pushes. *)
Lemma round_shape (shouldRetry : bool) (w w' : World) (r : Res (Response * bool)) :
  round E this opts functions shouldRetry w = (r, w') →
  ∃ evs, trace w' = trace w ++ evs
       ∧ requests evs = [next_request this opts functions w]
       ∧ calls w' = S (calls w)
       ∧ (length (invocations evs) ≤ 1)%nat
       ∧ (length (sleeps evs) ≤ length (invocations evs))%nat
       ∧ (length (pushed (messages opts) evs) ≤ 2 * length (invocations evs))%nat.
Proof.
  run_round. repeat split_round.
  all: intros [= <- <-]; simpl.
  all: eexists; split; [rewrite <- ?app_assoc; simpl; reflexivity |].
  all: simpl; rewrite ?decide_True by reflexivity; simpl.
  all: repeat split; lia.
Qed.

Lemma do_while_shape (fuel : nat) (shouldRetry : bool) (w w' : World)
    (o : Outcome Response) :
  do_while E fuel this opts functions shouldRetry w = (o, w') →
  ∃ evs, trace w' = trace w ++ evs
       ∧ Forall (λ r, ∃ arr, r = build_request this opts functions arr) (requests evs)
       ∧ (calls w' = calls w + length (requests evs))%nat
       ∧ (length (invocations evs) ≤ length (requests evs))%nat
       ∧ (length (sleeps evs) ≤ length (invocations evs))%nat
       ∧ (length (pushed (messages opts) evs) ≤ 2 * length (invocations evs))%nat.
Proof.
  revert shouldRetry w.
  induction fuel as [| fuel IH]; intros shouldRetry w; simpl.
  - intros [= <- <-]. exists []. rewrite app_nil_r. simpl.
    repeat split; [constructor | lia ..].
  - destruct (round E this opts functions shouldRetry w) as [r w1] eqn:Hround.
    destruct (round_shape _ _ _ _ Hround)
      as (evs1 & Ht1 & Hr1 & Hc1 & Hi1 & Hs1 & Hp1).
    assert (Hone : ∃ evs, trace w1 = trace w ++ evs
       ∧ Forall (λ r, ∃ arr, r = build_request this opts functions arr) (requests evs)
       ∧ (calls w1 = calls w + length (requests evs))%nat
       ∧ (length (invocations evs) ≤ length (requests evs))%nat
       ∧ (length (sleeps evs) ≤ length (invocations evs))%nat
       ∧ (length (pushed (messages opts) evs) ≤ 2 * length (invocations evs))%nat).
    { exists evs1. rewrite Hr1. simpl. repeat split; try lia; try assumption.
      apply List.Forall_cons; [| apply List.Forall_nil].
      eexists. reflexivity. }
    destruct r as [[resp sr] | e]; [| intros [= <- <-]; exact Hone].
    destruct (again this sr); [| intros [= <- <-]; exact Hone].
    intros Hrest. clear Hone.
    destruct (IH _ _ Hrest) as (evs2 & Ht2 & Hr2 & Hc2 & Hi2 & Hs2 & Hp2).
    assert (Hlen1 : length (requests evs1) = 1%nat) by (rewrite Hr1; reflexivity).
    exists (evs1 ++ evs2).
    unfold requests, invocations, sleeps, pushed in *.
    rewrite !omap_app, !length_app.
    split; [rewrite Ht2, Ht1, app_assoc; reflexivity |].
    split; [| repeat split; lia].
    apply Forall_app. split; [| exact Hr2].
    rewrite Hr1. apply List.Forall_cons; [| apply List.Forall_nil].
    eexists. reflexivity.
Qed.

End Rounds.

(** ** The requests *)

(** X10: when [forceFunctionCall] is a name, or a function of that name,
    every request of the call carries that name as [function_call], whatever
    is registered. *)
Theorem forced_name_in_every_request (E : Env) (fuel : nat) (this : SmolAI)
    (opts : Opts) (w w' : World) (o : Outcome Response) (n : string) :
  forceFunctionCall opts = ForceName n
  ∨ (∃ f, forceFunctionCall opts = ForceFunction f ∧ fn_name f = n) →
  chat E fuel this opts w = (o, w') →
  ∃ evs, trace w' = trace w ++ evs
       ∧ Forall (λ r, req_function_call r = Some n) (requests evs).
Proof.
  intros Hforce. unfold chat.
  destruct (listFunctions this) as [functions | e].
  - intros Hrun.
    destruct (do_while_shape E this opts functions _ _ _ _ _ Hrun)
      as (evs & Ht & Hreq & _).
    exists evs. split; [exact Ht |].
    eapply Forall_impl; [exact Hreq |].
    intros r [arr ->]. simpl.
    destruct Hforce as [-> | (f & -> & <-)]; reflexivity.
  - intros [= <- <-]. exists []. rewrite app_nil_r. split; [reflexivity | constructor].
Qed.

Lemma forced_name_witness :
  ∃ evs,
    trace (chat Examples.rejected_service 3 Examples.with_zod Examples.forced
             Examples.start).2 = trace Examples.start ++ evs
    ∧ Forall (λ r, req_function_call r = Some "getWeather") (requests evs).
Proof.
  apply (forced_name_in_every_request Examples.rejected_service 3
           Examples.with_zod Examples.forced Examples.start _
           (chat Examples.rejected_service 3 Examples.with_zod Examples.forced
              Examples.start).1 "getWeather").
  - left. reflexivity.
  - vm_compute. reflexivity.
Defined.

(** X11: when [forceFunctionCall] is [null], every request of the call
    offers no function and forces none. *)
Theorem disabled_offers_nothing (E : Env) (fuel : nat) (this : SmolAI)
    (opts : Opts) (w w' : World) (o : Outcome Response) :
  forceFunctionCall opts = ForceNull →
  chat E fuel this opts w = (o, w') →
  ∃ evs, trace w' = trace w ++ evs
       ∧ Forall (λ r, req_functions r = [] ∧ req_function_call r = None)
           (requests evs).
Proof.
  intros Hforce. unfold chat.
  destruct (listFunctions this) as [functions | e].
  - intros Hrun.
    destruct (do_while_shape E this opts functions _ _ _ _ _ Hrun)
      as (evs & Ht & Hreq & _).
    exists evs. split; [exact Ht |].
    eapply Forall_impl; [exact Hreq |].
    intros r [arr ->]. simpl. rewrite Hforce. split; reflexivity.
  - intros [= <- <-]. exists []. rewrite app_nil_r. split; [reflexivity | constructor].
Qed.

Lemma disabled_witness :
  ∃ evs,
    trace (chat Examples.valid_service 3 Examples.with_zod Examples.disabled
             Examples.start).2 = trace Examples.start ++ evs
    ∧ Forall (λ r, req_functions r = [] ∧ req_function_call r = None)
        (requests evs).
Proof.
  apply (disabled_offers_nothing Examples.valid_service 3 Examples.with_zod
           Examples.disabled Examples.start _
           (chat Examples.valid_service 3 Examples.with_zod Examples.disabled
              Examples.start).1).
  - reflexivity.
  - vm_compute. reflexivity.
Defined.

(** X12: however a call of [chat] ends, it has sent as many requests as the
    service has answered calls, it has called a registered function at most
    once per request, waited at most once per call of a function, and pushed
    at most two messages per call of a function. *)
Theorem chat_trace_counts (E : Env) (fuel : nat) (this : SmolAI) (opts : Opts)
    (w w' : World) (o : Outcome Response) :
  chat E fuel this opts w = (o, w') →
  ∃ evs, trace w' = trace w ++ evs
       ∧ (calls w' = calls w + length (requests evs))%nat
       ∧ (length (invocations evs) ≤ length (requests evs))%nat
       ∧ (length (sleeps evs) ≤ length (invocations evs))%nat
       ∧ (length (pushed (messages opts) evs) ≤ 2 * length (invocations evs))%nat.
Proof.
  unfold chat. destruct (listFunctions this) as [functions | e].
  - intros Hrun.
    destruct (do_while_shape E this opts functions _ _ _ _ _ Hrun)
      as (evs & Ht & _ & Hrest).
    exists evs. split; [exact Ht | exact Hrest].
  - intros [= <- <-]. exists []. rewrite app_nil_r. simpl.
    repeat split; lia.
Qed.

Lemma chat_trace_counts_witness :
  ∃ evs,
    trace (chat Examples.rejected_service 3 Examples.with_zod Examples.opts
             Examples.start).2 = trace Examples.start ++ evs
    ∧ (calls (chat Examples.rejected_service 3 Examples.with_zod Examples.opts
                Examples.start).2
       = calls Examples.start + length (requests evs))%nat
    ∧ (length (invocations evs) ≤ length (requests evs))%nat
    ∧ (length (sleeps evs) ≤ length (invocations evs))%nat
    ∧ (length (pushed (messages Examples.opts) evs)
       ≤ 2 * length (invocations evs))%nat.
Proof.
  apply (chat_trace_counts Examples.rejected_service 3 Examples.with_zod
           Examples.opts Examples.start _
           (chat Examples.rejected_service 3 Examples.with_zod Examples.opts
              Examples.start).1).
  vm_compute. reflexivity.
Defined.

(** ** How a call ends *)

(** X13: a call of [chat] that returns has made exactly one request, and
    what it returns is the response of the service to that request: the loop
    never returns after a second round. *)
Theorem chat_returns_after_one_round (E : Env) (fuel : nat) (this : SmolAI)
    (opts : Opts) (w w' : World) (resp : Response) :
  chat E fuel this opts w = (Returned resp, w') →
  calls w' = S (calls w)
  ∧ ∃ functions,
      listFunctions this = Ok functions
      ∧ createChatCompletion E (calls w) (next_request this opts functions w)
        = Ok resp.
Proof.
  unfold chat. destruct (listFunctions this) as [functions | e]; [| discriminate].
  intros Hrun.
  destruct (do_while_returned E this opts functions _ _ _ _ _ Hrun) as [Hresp Hcalls].
  split; [exact Hcalls |]. exists functions. auto.
Qed.

Lemma chat_returns_witness :
  calls (chat Examples.valid_service 6 Examples.with_zod Examples.opts
           Examples.start).2 = S (calls Examples.start)
  ∧ ∃ functions,
      listFunctions Examples.with_zod = Ok functions
      ∧ createChatCompletion Examples.valid_service (calls Examples.start)
          (next_request Examples.with_zod Examples.opts functions Examples.start)
        = Ok (Examples.reply (Examples.select "getWeather" Examples.paris_text)).
Proof.
  apply (chat_returns_after_one_round Examples.valid_service 6 Examples.with_zod
           Examples.opts Examples.start).
  vm_compute. reflexivity.
Defined.

(** X14: when a request fails, in whatever round, the loop ends with the
    error of the service; the request is the last thing that happened and
    the arrays are as they were before the round. *)
Theorem service_error_propagates (E : Env) (fuel : nat) (this : SmolAI)
    (opts : Opts) (functions : list RegisteredFunctionType) (shouldRetry : bool)
    (w : World) (e : JSError) :
  createChatCompletion E (calls w) (next_request this opts functions w) = Throw e →
  ∃ w', do_while E (S fuel) this opts functions shouldRetry w = (Threw e, w')
      ∧ trace w' = trace w ++ [EvRequest (next_request this opts functions w)]
      ∧ heap w' = heap w.
Proof.
  intros Hsend. simpl.
  rewrite (round_send_throws E this opts functions shouldRetry w e Hsend).
  eexists. split; [reflexivity |]. simpl. auto.
Qed.

Lemma service_error_witness :
  ∃ w', do_while Examples.broken_service 6 Examples.with_zod Examples.opts []
          false Examples.start
        = (Threw (mkError OtherError "Network Error"), w')
      ∧ trace w' =
          trace Examples.start ++
          [EvRequest (next_request Examples.with_zod Examples.opts [] Examples.start)]
      ∧ heap w' = heap Examples.start.
Proof.
  apply (service_error_propagates Examples.broken_service 5 Examples.with_zod
           Examples.opts [] false Examples.start).
  reflexivity.
Defined.

(** X15: a response with no choice ends the loop with the [TypeError] of
    reading [message] of undefined, after the request and before anything
    else. *)
Theorem empty_choices_abort (E : Env) (fuel : nat) (this : SmolAI)
    (opts : Opts) (functions : list RegisteredFunctionType) (shouldRetry : bool)
    (w : World) (resp : Response) :
  createChatCompletion E (calls w) (next_request this opts functions w) = Ok resp →
  choices resp = [] →
  ∃ w', do_while E (S fuel) this opts functions shouldRetry w
        = (Threw (mkError TypeError
                    "Cannot read properties of undefined (reading 'message')"), w')
      ∧ trace w' = trace w ++ [EvRequest (next_request this opts functions w)]
      ∧ heap w' = heap w.
Proof.
  intros Hsend Hempty. simpl. run_round.
  rewrite Hsend. unfold first_function_call. rewrite Hempty. simpl.
  eexists. split; [reflexivity |]. simpl. auto.
Qed.

Lemma empty_choices_witness :
  ∃ w', do_while Examples.empty_service 6 Examples.with_zod Examples.opts []
          false Examples.start
        = (Threw (mkError TypeError
                    "Cannot read properties of undefined (reading 'message')"), w')
      ∧ trace w' =
          trace Examples.start ++
          [EvRequest (next_request Examples.with_zod Examples.opts [] Examples.start)]
      ∧ heap w' = heap Examples.start.
Proof.
  apply (empty_choices_abort Examples.empty_service 5 Examples.with_zod
           Examples.opts [] false Examples.start (mkResponse []));
    reflexivity.
Defined.

(** X16: when the arguments pass and the registered function throws, the
    loop ends with the error of the function: no function message is pushed,
    there is no wait, and the arrays are as they were before the round. *)
Theorem function_error_propagates (E : Env) (fuel : nat) (this : SmolAI)
    (opts : Opts) (functions : list RegisteredFunctionType) (shouldRetry : bool)
    (w : World) (resp : Response) (c : FunctionCall)
    (d : RegisteredFunctionType) (args : JSValue) (e : JSError) :
  createChatCompletion E (calls w) (next_request this opts functions w) = Ok resp →
  first_function_call resp = Ok (Some c) →
  getFunction this (call_ref c) = Ok d →
  parse_arguments E d c = Ok args →
  fn_call (fullFunction d) args = Throw e →
  ∃ w', do_while E (S fuel) this opts functions shouldRetry w = (Threw e, w')
      ∧ trace w' = trace w ++ [EvRequest (next_request this opts functions w);
                               EvInvoke (fullFunction d) args]
      ∧ heap w' = heap w.
Proof.
  intros H1 H2 H3 H4 H5. simpl. run_round.
  rewrite H1, H2. simpl. rewrite H3, H4. simpl. rewrite H5.
  eexists. split; [reflexivity |]. simpl.
  rewrite <- app_assoc. auto.
Qed.

Lemma function_error_witness :
  ∃ w', do_while Examples.valid_service 6 Examples.with_unavailable
          Examples.opts [] false Examples.start
        = (Threw (mkError PlainError "unavailable"), w')
      ∧ trace w' =
          trace Examples.start ++
          [EvRequest (next_request Examples.with_unavailable Examples.opts []
                        Examples.start);
           EvInvoke Examples.unavailable Examples.paris]
      ∧ heap w' = heap Examples.start.
Proof.
  apply (function_error_propagates Examples.valid_service 5
           Examples.with_unavailable Examples.opts [] false Examples.start
           (Examples.reply (Examples.select "getWeather" Examples.paris_text))
           (mkCall (Some "getWeather") (Some Examples.paris_text))
           (mkRegistered "getWeather" Examples.unavailable
              (JSONSchema Examples.city_document) Examples.city_document)
           Examples.paris);
    vm_compute; reflexivity.
Defined.

(** X17: when the first response selects a registered function with
    arguments that pass, the function returns and its result serialises,
    [chat] returns that response after one round, in which it has called the
    function once with the parsed arguments, pushed the function message
    onto the caller's array and waited once. *)
Theorem valid_call_returns (E : Env) (fuel : nat) (this : SmolAI) (opts : Opts)
    (w : World) (functions : list RegisteredFunctionType) (resp : Response)
    (c : FunctionCall) (d : RegisteredFunctionType) (args res : JSValue)
    (text : option string) (arr : list MessageOrString) :
  listFunctions this = Ok functions →
  heap w !! messages opts = Some arr →
  createChatCompletion E (calls w) (next_request this opts functions w) = Ok resp →
  first_function_call resp = Ok (Some c) →
  getFunction this (call_ref c) = Ok d →
  parse_arguments E d c = Ok args →
  fn_call (fullFunction d) args = Ok res →
  JSON_stringify E res = Ok text →
  ∃ w', chat E (S fuel) this opts w = (Returned resp, w')
      ∧ trace w' = trace w ++
          [EvRequest (next_request this opts functions w);
           EvInvoke (fullFunction d) args;
           EvPush (messages opts) (function_message d text);
           EvSleep (backoff this (Math_random E (draws w)))]
      ∧ heap w' = <[messages opts := arr ++ [function_message d text]]> (heap w).
Proof.
  intros Hlist Hl H1 H2 H3 H4 H5 H6. unfold chat. rewrite Hlist. simpl.
  destruct (round_valid E this opts functions false w _ _ _ _ _ _
              H1 H2 H3 H4 H5 H6) as (w' & -> & Ht & Hh & _).
  unfold again. simpl. exists w'.
  split; [reflexivity |]. split; [exact Ht |].
  rewrite Hh. apply push_lookup, Hl.
Qed.

Lemma valid_call_witness :
  ∃ w', chat Examples.valid_service 6 Examples.with_zod Examples.opts
          Examples.start
        = (Returned (Examples.reply
                       (Examples.select "getWeather" Examples.paris_text)), w')
      ∧ trace w' = trace Examples.start ++
          [EvRequest (next_request Examples.with_zod Examples.opts [] Examples.start);
           EvInvoke Examples.getWeather Examples.paris;
           EvPush 0
             (function_message
                (mkRegistered "getWeather" Examples.getWeather
                   (Zod Examples.city_zod) Examples.city_document)
                (Some Examples.weather_text));
           EvSleep 99]
      ∧ heap w' =
          <[0%nat := [MString "Weather in Paris?"] ++
                     [function_message
                        (mkRegistered "getWeather" Examples.getWeather
                           (Zod Examples.city_zod) Examples.city_document)
                        (Some Examples.weather_text)]]> (heap Examples.start).
Proof.
  apply (valid_call_returns Examples.valid_service 5 Examples.with_zod
           Examples.opts Examples.start []
           (Examples.reply (Examples.select "getWeather" Examples.paris_text))
           (mkCall (Some "getWeather") (Some Examples.paris_text))
           (mkRegistered "getWeather" Examples.getWeather
              (Zod Examples.city_zod) Examples.city_document)
           Examples.paris Examples.weather (Some Examples.weather_text)
           [MString "Weather in Paris?"]);
    vm_compute; reflexivity.
Defined.

(** X18: for a descriptor with a Zod schema, the argument of the function is
    what [schema.parse] returns for the decoded text, and the function is
    called with it right after the request, before any message is pushed. *)
Theorem zod_output_is_the_argument (E : Env) (this : SmolAI) (opts : Opts)
    (functions : list RegisteredFunctionType) (shouldRetry : bool) (w : World)
    (resp : Response) (c : FunctionCall) (d : RegisteredFunctionType)
    (z : ZodSchema) (json v : JSValue) :
  schema d = Zod z →
  JSON_parse E (arguments_text c) = Ok json →
  zod_parse z json = Ok v →
  createChatCompletion E (calls w) (next_request this opts functions w) = Ok resp →
  first_function_call resp = Ok (Some c) →
  getFunction this (call_ref c) = Ok d →
  ∃ evs,
    trace (round E this opts functions shouldRetry w).2 =
      trace w ++ EvRequest (next_request this opts functions w)
              :: EvInvoke (fullFunction d) v :: evs.
Proof.
  intros Hschema Hparse Hzod H1 H2 H3.
  assert (Hargs : parse_arguments E d c = Ok v).
  { unfold parse_arguments. rewrite Hparse. simpl. rewrite Hschema. exact Hzod. }
  run_round. rewrite H1, H2. simpl. rewrite H3, Hargs. simpl.
  repeat split_round.
  all: eexists; rewrite <- ?app_assoc; simpl; reflexivity.
Qed.

Lemma zod_output_witness :
  ∃ evs,
    trace (round Examples.valid_service Examples.with_zod Examples.opts []
             false Examples.start).2 =
      trace Examples.start ++
      EvRequest (next_request Examples.with_zod Examples.opts [] Examples.start)
      :: EvInvoke Examples.getWeather Examples.paris :: evs.
Proof.
  apply (zod_output_is_the_argument Examples.valid_service Examples.with_zod
           Examples.opts [] false Examples.start
           (Examples.reply (Examples.select "getWeather" Examples.paris_text))
           (mkCall (Some "getWeather") (Some Examples.paris_text))
           (mkRegistered "getWeather" Examples.getWeather
              (Zod Examples.city_zod) Examples.city_document)
           Examples.city_zod Examples.paris Examples.paris);
    vm_compute; reflexivity.
Defined.

(** X19: the body of the do/while runs once even when no retry is left: with
    [retryLimit] not above [retryAttempts], a call of [chat] sends exactly
    one request and then returns or throws, whatever the arguments were. *)
Theorem no_retry_left_one_round (E : Env) (fuel : nat) (this : SmolAI)
    (opts : Opts) (w : World) (functions : list RegisteredFunctionType) :
  retryLimit this <= retryAttempts this →
  listFunctions this = Ok functions →
  ∃ o w', chat E (S fuel) this opts w = (o, w')
        ∧ o ≠ Unfinished
        ∧ calls w' = S (calls w).
Proof.
  intros Hlimit Hlist. unfold chat. rewrite Hlist. simpl.
  destruct (round E this opts functions false w) as [r w1] eqn:Hround.
  destruct (round_shape E this opts functions _ _ _ _ Hround)
    as (_ & _ & _ & Hcalls & _).
  destruct r as [[resp sr] | e].
  - replace (again this sr) with false.
    + exists (Returned resp), w1. repeat split; [discriminate | exact Hcalls].
    + unfold again. replace (retryAttempts this <? retryLimit this) with false
        by (symmetry; apply Z.ltb_ge, Hlimit).
      destruct sr; reflexivity.
  - exists (Threw e), w1. repeat split; [discriminate | exact Hcalls].
Qed.

Lemma no_retry_left_witness :
  ∃ o w', chat Examples.malformed_service 6 Examples.impatient Examples.opts
            Examples.start = (o, w')
        ∧ o ≠ Unfinished
        ∧ calls w' = S (calls Examples.start).
Proof.
  apply (no_retry_left_one_round Examples.malformed_service 5 Examples.impatient
           Examples.opts Examples.start []).
  - vm_compute. discriminate.
  - vm_compute. reflexivity.
Defined.
